(** * discdrive: chunked transfer over a message channel

    A shallow embedding of [script.py].  Names are strings over the code
    points below 256 (on these the regex class [\d] is exactly [0-9]), file
    contents are lists of bytes, Python integers are [nat] or [N], and every
    call to the remote API is answered by an oracle that the theorems
    quantify over. *)

From Stdlib Require Import Ascii QArith.
From stdpp Require Import list strings pretty gmap sorting.
From Equations Require Import Equations.

Local Open Scope nat_scope.

(** ** Module constants (script.py, lines 12-15) *)

Definition CHUNK_SIZE : N := 10 * 1024 * 1024.
Definition MAX_CONCURRENT_UPLOADS : nat := 3.
Definition MAX_RETRIES : nat := 5.
Definition MAX_MESSAGES_TO_FETCH : nat := 100.

(** ** Part names: the regex [\.part\d+$] *)

Module Naming.

Definition newline : ascii := "010"%char.

(** [\d] *)
Definition is_digit (c : ascii) : bool :=
  match Ascii.is_nat c with Some _ => true | None => false end.

(** Greedy [\d*] at the head of [s]: the digits matched and what follows. *)
Fixpoint span_digits (s : string) : string * string :=
  match s with
  | String c s' =>
      if is_digit c
      then let '(d, r) := span_digits s' in (String c d, r)
      else ("", s)
  | "" => ("", "")
  end.

(** [$] without [re.MULTILINE]: the end of the string, or just before a
    newline that is the last character of the string. *)
Definition at_dollar (s : string) : bool :=
  match s with
  | "" => true
  | String c "" => bool_decide (c = newline)
  | _ => false
  end.

(** The literal [p] at the head of [s]: what follows it. *)
Fixpoint literal (p s : string) : option string :=
  match p, s with
  | "", _ => Some s
  | String c p', String c' s' => if decide (c = c') then literal p' s' else None
  | String _ _, "" => None
  end.

(** [\.part(\d+)$] anchored at the head of [s]: group 1 and the text after
    the match.  Giving digits back to reach [$] cannot help, since the
    character after a shorter run is a digit, so only the greedy run is
    tried. *)
Definition match_part (s : string) : option (string * string) :=
  match literal ".part" s with
  | Some r =>
      let '(d, rest) := span_digits r in
      if bool_decide (d ≠ "") && at_dollar rest then Some (d, rest) else None
  | None => None
  end.

(** [re.sub(r"\.part\d+$", "", s)]: scan from the left; where the pattern
    matches, drop the matched text and go on after it, otherwise keep the
    character.  [skip] counts the characters of a match still to drop. *)
Fixpoint re_sub_part (skip : nat) (s : string) : string :=
  match s with
  | "" => ""
  | String c s' =>
      match skip with
      | S k => re_sub_part k s'
      | 0 =>
          match match_part s with
          | Some (d, _) => re_sub_part (4 + String.length d) s'
          | None => String c (re_sub_part 0 s')
          end
      end
  end.

(** script.py, lines 17-18. *)
Definition clean_filename_part (filename : string) : string :=
  re_sub_part 0 filename.

(** [re.search(r"\.part(\d+)$", s)]: group 1 of the leftmost match. *)
Fixpoint re_search_part (s : string) : option string :=
  match match_part s with
  | Some (d, _) => Some d
  | None =>
      match s with
      | "" => None
      | String _ s' => re_search_part s'
      end
  end.

Definition digit_value (c : ascii) : N :=
  match Ascii.is_nat c with Some n => N.of_nat n | None => 0 end.

Fixpoint int_go (acc : N) (d : string) : N :=
  match d with
  | "" => acc
  | String c d' => int_go (10 * acc + digit_value c) d'
  end.

(** [int(d)] on a string of digits, of whatever length. *)
Definition int (d : string) : N := int_go 0 d.

(** The sort key of [download_file] (script.py, line 158). *)
Definition part_key (filename : string) : N :=
  match re_search_part filename with
  | Some d => int d
  | None => 0
  end.

(** [f"{name}.part{part}"] (script.py, lines 34 and 47). *)
Definition part_name (name : string) (part : nat) : string :=
  name +:+ ".part" +:+ pretty part.

Fixpoint all_digits (d : string) : bool :=
  match d with
  | "" => true
  | String c d' => is_digit c && all_digits d'
  end.

(** Whether the character [c] occurs in [s]. *)
Fixpoint occurs (c : ascii) (s : string) : bool :=
  match s with
  | "" => false
  | String c' s' => bool_decide (c = c') || occurs c s'
  end.

(** What may follow a match: nothing, or the one newline [$] tolerates. *)
Definition dollar_rest (rest : string) : Prop :=
  rest = "" ∨ rest = String newline "".

(** The name ends in [.part<digits>]. *)
Definition has_part_suffix (s : string) : Prop :=
  ∃ b d, s = b +:+ ".part" +:+ d ∧ d ≠ "" ∧ all_digits d = true.

End Naming.

Import Naming.

(** ** The remote API and what an operation leaves behind *)

Module Remote.

Abbreviation byte := Byte.byte.

(** The reply to a POST or DELETE.  [text] is [resp.text]; [json] is what
    [resp.json()] followed by [j.get("retry_after", default)] finds: [None]
    when the body is no JSON object (the call raises), [Some None] for an
    object without the key, [Some (Some d)] for one carrying [d] seconds. *)
Record Response := {
  status : nat;
  text : string;
  json : option (option Q)
}.

Record Attachment := {
  filename : string;
  size : N;
  url : string
}.

(** A message of the channel; [attachments] is [msg.get("attachments", [])]. *)
Record Message := {
  id : string;
  attachments : list Attachment
}.

(** The reply to [GET /channels/{id}/messages]; [batch] is [resp.json()]. *)
Record Page := {
  page_status : nat;
  page_text : string;
  batch : list Message
}.

(** The reply to a GET of an attachment url; [content] is [resp.read()]. *)
Record Fetched := {
  fetch_status : nat;
  fetch_text : string;
  content : list byte
}.

(** Lines printed to the console, by the format string that produces them. *)
Inductive Line :=
| NoSuchFile
| PartError (part status : nat) (body : string)
| RateLimited (part : nat) (retry_after : Q)
| UploadFailed (part : nat)
| FetchError (status : nat) (body : string)
| NoPartsFound (file_name : string)
| DownloadError (fname : string) (status : nat) (body : string)
| Downloaded (out_file : string)
| NoPartsToDelete (file_name : string)
| DeleteError (message_id : string) (status : nat) (body : string)
| DeleteFailed (message_id : string)
| Deleted (deleted_count : nat) (file_name : string).

(** What an operation does, in the order it does it. *)
Inductive Event :=
| Post (filename : string) (chunk : list byte)
| GetMessages (batch_limit : nat) (before : option string)
| GetUrl (url : string)
| Delete (message_id : string)
| Sleep (seconds : Q)
| OpenWb (path : string)
| Write (path : string) (chunk : list byte)
| Progress
| Print (line : Line).

End Remote.

Import Remote.

(** ** Upload (script.py, lines 20-92) *)

Module Upload.

(** [f.read(chunk_size)] on a file whose unread bytes are [rest]: the chunk
    read and the bytes left.  Here and below [chunk_size] stands for
    [N.to_nat CHUNK_SIZE]. *)
Definition read (chunk_size : nat) (rest : list byte) : list byte * list byte :=
  (take chunk_size rest, drop chunk_size rest).

(** The value a branch tests, kept together with its defining equation. *)
Definition inspect {A} (a : A) : {b : A | a = b} := exist _ a eq_refl.

(** The read loop of [upload_async] (lines 82-91): the [(part, chunk)] pairs
    for which a task is created, in the order of creation. *)
Equations? read_chunks (chunk_size part : nat) (rest : list byte) :
    list (nat * list byte) by wf (length rest) lt :=
  read_chunks chunk_size part rest with inspect (read chunk_size rest) => {
    | exist _ ([], _) _ := [];
    | exist _ (chunk, rest') _ := (part, chunk) :: read_chunks chunk_size (S part) rest' }.
Proof.
  rewrite length_drop.
  destruct chunk_size, rest; simplify_eq/=; lia.
Qed.

(** [upload_sync] (lines 26-42) on the file [name] with content [rest] left
    to read: one POST per chunk, and the first reply that is not 200, a 429
    like any other, ends the upload.  [post k] answers the POST made after
    [k] earlier ones. *)
Equations? upload_sync_loop (chunk_size : nat) (name : string)
    (post : nat → string → list byte → Response)
    (part : nat) (rest : list byte) : list Event by wf (length rest) lt :=
  upload_sync_loop chunk_size name post part rest
    with inspect (read chunk_size rest) => {
    | exist _ ([], _) _ := [];
    | exist _ (chunk, rest') _
        with post (part - 1) (part_name name part) chunk => {
        | r with decide (status r = 200) => {
            | left _ :=
                Post (part_name name part) chunk :: Progress ::
                upload_sync_loop chunk_size name post (S part) rest';
            | right _ :=
                [Post (part_name name part) chunk;
                 Print (PartError part (status r) (text r))] } } }.
Proof.
  rewrite length_drop.
  destruct chunk_size, rest; simplify_eq/=; lia.
Qed.

(** [file] is [None] when [os.path.isfile(path)] fails; [name] is
    [os.path.basename(path)]. *)
Definition upload_sync (chunk_size : nat) (name : string)
    (file : option (list byte))
    (post : nat → string → list byte → Response) : list Event :=
  match file with
  | None => [Print NoSuchFile]
  | Some content => upload_sync_loop chunk_size name post 1 content
  end.

(** How one part upload of [upload_chunk] ends.  The function itself returns
    nothing; the three ends are told apart by what it printed. *)
Inductive Outcome :=
| Uploaded
| RemoteError (status : nat) (body : string)
| TransferFailed.

(** Lines 59-64: the delay after a 429. *)
Definition upload_retry_after (r : Response) : Q :=
  match json r with
  | Some (Some d) => d
  | Some None => 1 # 2
  | None => 1 # 2
  end.

(** Run [k] after the events [evs]. *)
Definition and_then {A} (evs : list Event) (k : A * list Event) :
    A * list Event :=
  (k.1, evs ++ k.2).

(** The retry loop of [upload_chunk] (lines 51-72), run on its own: [post n]
    answers the attempt made with [retry_count = n]. *)
Equations? upload_chunk_loop (post : nat → Response) (filename : string)
    (chunk : list byte) (part retry_count : nat) :
    Outcome * list Event by wf (MAX_RETRIES - retry_count) lt :=
  upload_chunk_loop post filename chunk part retry_count
    with decide (retry_count < MAX_RETRIES) => {
    | right _ := (TransferFailed, [Print (UploadFailed part)]);
    | left _ with post retry_count => {
        | r with decide (status r = 200) => {
            | left _ := (Uploaded, [Post filename chunk; Progress]);
            | right _ with decide (status r = 429) => {
                | left _ :=
                    and_then
                      [Post filename chunk;
                       Print (RateLimited part (upload_retry_after r));
                       Sleep (upload_retry_after r)]
                      (upload_chunk_loop post filename chunk part
                         (S retry_count));
                | right _ :=
                    (RemoteError (status r) (text r),
                     [Post filename chunk;
                      Print (PartError part (status r) (text r))]) } } } }.
Proof. unfold MAX_RETRIES in *. lia. Qed.

(** What [n] rate-limited attempts, the first made with [retry_count = k],
    leave in the trace: the POST, the line printed, the sleep. *)
Definition backoff (post : nat → Response) (filename : string)
    (chunk : list byte) (part k n : nat) : list Event :=
  i ← seq k n;
  [Post filename chunk;
   Print (RateLimited part (upload_retry_after (post i)));
   Sleep (upload_retry_after (post i))].

Definition upload_chunk (post : nat → Response) (name : string)
    (chunk : list byte) (part : nat) : Outcome * list Event :=
  upload_chunk_loop post (part_name name part) chunk part 0.

(** The [(filename, chunk)] pairs posted, in order. *)
Definition posted (evs : list Event) : list (string * list byte) :=
  omap (λ e, match e with Post f c => Some (f, c) | _ => None end) evs.

End Upload.

Import Upload.

(** ** The inventory scan (script.py, lines 95-136) *)

Module Inventory.

(** [if last_id: params["before"] = last_id]: [None] and the empty string
    are both false. *)
Definition before_param (last_id : option string) : option string :=
  match last_id with
  | Some i => if decide (i = "") then None else Some i
  | None => None
  end.

(** The paging loop of [fetch_messages] (lines 101-116).  [get k] answers
    the page request made after [k] earlier ones; [id <$> last (batch r)] is
    [batch[-1]["id"]] of a batch that is not empty. *)
Equations? fetch_loop (get : nat → nat → option string → Page) (limit : nat)
    (k : nat) (messages : list Message) (last_id : option string) :
    list Message * list Event by wf (limit - length messages) lt :=
  fetch_loop get limit k messages last_id
    with decide (length messages < limit) => {
    | right _ := (messages, []);
    | left _
        with get k (100 `min` (limit - length messages))
               (before_param last_id) => {
        | r with decide (page_status r = 200) => {
            | right _ :=
                (messages,
                 [GetMessages (100 `min` (limit - length messages))
                    (before_param last_id);
                  Print (FetchError (page_status r) (page_text r))]);
            | left _ with decide (batch r = []) => {
                | left _ :=
                    (messages,
                     [GetMessages (100 `min` (limit - length messages))
                        (before_param last_id)]);
                | right _ :=
                    and_then
                      [GetMessages (100 `min` (limit - length messages))
                         (before_param last_id)]
                      (fetch_loop get limit (S k) (messages ++ batch r)
                         (id <$> last (batch r))) } } } }.
Proof. rewrite length_app. destruct (batch r); [done | simpl; lia]. Qed.

(** The page requests made, in order: [limit] and [before] of each. *)
Definition requested (evs : list Event) : list (nat * option string) :=
  omap (λ e, match e with GetMessages n b => Some (n, b) | _ => None end) evs.

(** The request the loop makes while it holds the messages [held]. *)
Definition page_request (limit : nat) (held : list Message) :
    nat * option string :=
  (100 `min` (limit - length held), before_param (id <$> last held)).

(** The events of a scan: page requests and the line of a failed one. *)
Definition scan_event (e : Event) : Prop :=
  match e with
  | GetMessages _ _ | Print (FetchError _ _) => True
  | _ => False
  end.

(** The reply to the request made after [k] others while [held] is what
    has been gathered. *)
Definition reply_at (get : nat → nat → option string → Page) (limit k : nat)
    (held : list Message) : Page :=
  get k (page_request limit held).1 (page_request limit held).2.

(** [fetch_messages(session, limit)]: the messages returned and the
    requests made. *)
Definition fetch_messages (get : nat → nat → option string → Page)
    (limit : nat) : list Message * list Event :=
  let r := fetch_loop get limit 0 [] None in (take limit r.1, r.2).

(** One turn of the inner loop of [list_files] (lines 133-136). *)
Definition count_attachment (acc : gmap string nat * gmap string N)
    (att : Attachment) : gmap string nat * gmap string N :=
  let base_name := clean_filename_part (filename att) in
  (<[base_name := default 0 (acc.1 !! base_name) + 1]> acc.1,
   <[base_name := (default 0 (acc.2 !! base_name) + size att)%N]> acc.2).

(** [files_map] and [files_size] after the loops of lines 129-136. *)
Definition group_files (messages : list Message) :
    gmap string nat * gmap string N :=
  foldl (λ acc msg, foldl count_attachment acc (attachments msg))
    (∅, ∅) messages.

(** The inventory of [list_files] for a scan of [limit] messages; the
    rendering of the lines (lines 138-145) is left out. *)
Definition build_inventory (get : nat → nat → option string → Page)
    (limit : nat) : gmap string nat * gmap string N :=
  group_files (fetch_messages get limit).1.

Definition list_files (get : nat → nat → option string → Page) :
    gmap string nat * gmap string N :=
  build_inventory get MAX_MESSAGES_TO_FETCH.

(** Every file of the inventory [a] is in [b] with at least as many parts
    and as many bytes. *)
Definition extends (a b : gmap string nat * gmap string N) : Prop :=
  ∀ name,
    (∀ c, a.1 !! name = Some c → ∃ c', b.1 !! name = Some c' ∧ c ≤ c')
    ∧ (∀ z, a.2 !! name = Some z → ∃ z', b.2 !! name = Some z' ∧ (z ≤ z')%N).

(** The attachments of [file_name] with the message that owns each, in scan
    order (the loops of lines 151-153 and 177-179). *)
Definition located (file_name : string) (messages : list Message) :
    list (Message * Attachment) :=
  msg ← messages;
  att ← attachments msg;
  if decide (clean_filename_part (filename att) = file_name)
  then [(msg, att)] else [].

End Inventory.

Import Inventory.

(** ** Download (script.py, lines 147-171) *)

Module Download.

(** [list.sort(key=...)] is stable; the stable ascending arrangement is the
    one insertion from the right builds. *)
Fixpoint insert_by {A} (key : A → N) (x : A) (l : list A) : list A :=
  match l with
  | [] => [x]
  | y :: l' =>
      if (key x <=? key y)%N then x :: y :: l' else y :: insert_by key x l'
  end.

Definition sort_by {A} (key : A → N) (l : list A) : list A :=
  foldr (insert_by key) [] l.

(** [f.write(chunk)] on the file opened at [path]. *)
Definition append_to (path : string) (chunk : list byte)
    (fs : gmap string (list byte)) : gmap string (list byte) :=
  <[path := default [] (fs !! path) ++ chunk]> fs.

(** The loop of lines 161-170 over the sorted parts.  [get k] answers the
    fetch made after [k] earlier ones; the flag tells whether the loop ran
    to its end. *)
Fixpoint download_loop (get : nat → string → Fetched) (out_file : string)
    (k : nat) (parts : list (string * string))
    (fs : gmap string (list byte)) :
    (gmap string (list byte) * bool) * list Event :=
  match parts with
  | [] => ((fs, true), [])
  | (fname, u) :: parts' =>
      let r := get k u in
      if decide (fetch_status r = 200)
      then and_then [GetUrl u; Write out_file (content r); Progress]
             (download_loop get out_file (S k) parts'
                (append_to out_file (content r) fs))
      else ((fs, false),
            [GetUrl u;
             Print (DownloadError fname (fetch_status r) (fetch_text r))])
  end.

(** The urls fetched, in order. *)
Definition fetched (evs : list Event) : list string :=
  omap (λ e, match e with GetUrl u => Some u | _ => None end) evs.

(** The paths opened for writing, in order. *)
Definition opened (evs : list Event) : list string :=
  omap (λ e, match e with OpenWb path => Some path | _ => None end) evs.

(** The bodies received for [parts] when they are fetched in this order,
    [k] fetches having gone before. *)
Definition contents (get : nat → string → Fetched) (k : nat)
    (parts : list (string * string)) : list (list byte) :=
  imap (λ i p, content (get (k + i) p.2)) parts.

(** The parts of [file_name] as [(filename, url)] pairs (line 154). *)
Definition parts_of (file_name : string) (messages : list Message) :
    list (string * string) :=
  (λ ma, (filename ma.2, url ma.2)) <$> located file_name messages.

(** [download_file(file_name)] on the local files [fs]: the local files
    afterwards and what was done. *)
Definition download_file (get_page : nat → nat → option string → Page)
    (get_url : nat → string → Fetched) (file_name : string)
    (fs : gmap string (list byte)) :
    gmap string (list byte) * list Event :=
  let scan := fetch_messages get_page MAX_MESSAGES_TO_FETCH in
  match parts_of file_name scan.1 with
  | [] => (fs, scan.2 ++ [Print (NoPartsFound file_name)])
  | parts =>
      let sorted := sort_by (λ x, part_key x.1) parts in
      let out_file := file_name in
      let run := download_loop get_url out_file 0 sorted (<[out_file := []]> fs) in
      (run.1.1,
       scan.2 ++ OpenWb out_file :: run.2 ++
       (if run.1.2 then [Print (Downloaded out_file)] else []))
  end.

End Download.

Import Download.

(** ** Delete (script.py, lines 173-212) *)

Module Deletion.

(** How the retry loop for one message ends; [Raised] is the exception of
    [resp.json()] or [j.get] on a 429 whose body is no JSON object, which
    nothing in [delete_file] catches. *)
Inductive DeleteOutcome :=
| Gone
| Refused (status : nat) (body : string)
| Exhausted
| Raised.

(** [j.get("retry_after", 1)] (line 200). *)
Definition delete_retry_after (j : option Q) : Q := default 1%Q j.

(** The loop of lines 191-210 for one message.  [delete k] answers the
    DELETE made after [k] earlier ones; the result carries the number of
    requests made so far. *)
Equations? delete_one (delete : nat → string → Response)
    (message_id : string) (k retry_count : nat) :
    (DeleteOutcome * nat) * list Event
    by wf (MAX_RETRIES - retry_count) lt :=
  delete_one delete message_id k retry_count
    with decide (retry_count < MAX_RETRIES) => {
    | right _ := ((Exhausted, k), [Print (DeleteFailed message_id); Progress]);
    | left _ with delete k message_id => {
        | r with decide (status r = 204) => {
            | left _ := ((Gone, S k), [Delete message_id; Progress]);
            | right _ with decide (status r = 429) => {
                | left _ with json r => {
                    | None := ((Raised, S k), [Delete message_id]);
                    | Some j :=
                        and_then
                          [Delete message_id; Sleep (delete_retry_after j)]
                          (delete_one delete message_id (S k)
                             (S retry_count)) };
                | right _ :=
                    ((Refused (status r) (text r), S k),
                     [Delete message_id;
                      Print (DeleteError message_id (status r) (text r));
                      Progress]) } } } }.
Proof. all: unfold MAX_RETRIES in *; lia. Qed.

(** What [n] rate-limited attempts, the first being request [k], leave in
    the trace. *)
Definition delete_backoff (delete : nat → string → Response)
    (message_id : string) (k n : nat) : list Event :=
  i ← seq k n;
  [Delete message_id;
   Sleep (delete_retry_after (default None (json (delete i message_id))))].

(** The loop of line 190 over [to_delete]: [Some deleted_count] at its end,
    [None] when an exception left it. *)
Fixpoint delete_loop (delete : nat → string → Response) (k : nat)
    (to_delete : list string) (deleted_count : nat) :
    option nat * list Event :=
  match to_delete with
  | [] => (Some deleted_count, [])
  | message_id :: rest =>
      let one := delete_one delete message_id k 0 in
      match one.1.1 with
      | Gone =>
          and_then one.2 (delete_loop delete one.1.2 rest (S deleted_count))
      | Refused _ _ | Exhausted =>
          and_then one.2 (delete_loop delete one.1.2 rest deleted_count)
      | Raised => (None, one.2)
      end
  end.

(** The message ids a DELETE was sent for, in order. *)
Definition attempted (evs : list Event) : list string :=
  omap (λ e, match e with Delete i => Some i | _ => None end) evs.

(** The number of 204 replies to the requests [ids], sent in this order
    after [k] earlier ones. *)
Definition gone_count (delete : nat → string → Response) (k : nat)
    (ids : list string) : nat :=
  length (filter (λ st, st = 204)
            (imap (λ j i, status (delete (k + j) i)) ids)).

(** The message ids collected by lines 176-180. *)
Definition ids_of (file_name : string) (messages : list Message) :
    list string :=
  (λ ma, id ma.1) <$> located file_name messages.

(** [delete_file(file_name)]: the count it reports, if it gets to report
    one, and what was done. *)
Definition delete_file (get_page : nat → nat → option string → Page)
    (delete : nat → string → Response) (file_name : string) :
    option nat * list Event :=
  let scan := fetch_messages get_page MAX_MESSAGES_TO_FETCH in
  match ids_of file_name scan.1 with
  | [] => (None, scan.2 ++ [Print (NoPartsToDelete file_name)])
  | to_delete =>
      let run := delete_loop delete 0 to_delete 0 in
      match run.1 with
      | Some deleted_count =>
          (Some deleted_count,
           scan.2 ++ run.2 ++ [Print (Deleted deleted_count file_name)])
      | None => (None, scan.2 ++ run.2)
      end
  end.

End Deletion.

Import Deletion.

(** ** A channel with a fixed history *)

Module Channel.

(** The messages of [history] (newest first) older than the message [i]. *)
Fixpoint older_than (i : string) (history : list Message) : list Message :=
  match history with
  | [] => []
  | m :: h => if decide (id m = i) then h else older_than i h
  end.

(** The remote API of a channel whose history does not change while it is
    scanned: [GET /channels/{id}/messages?limit=<n>&before=<id>] answers 200
    with the [n] newest messages, or the [n] newest ones older than [id]. *)
Definition serve (history : list Message) (k batch_limit : nat)
    (before : option string) : Page :=
  {| page_status := 200;
     page_text := "";
     batch := take batch_limit
                (match before with
                 | None => history
                 | Some i => older_than i history
                 end) |}.

(** Message ids are snowflakes: never empty, never shared. *)
Definition well_formed (history : list Message) : Prop :=
  NoDup (id <$> history) ∧ Forall (λ m, id m ≠ "") history.

End Channel.

Import Channel.

(** ** The concurrent upload (script.py, lines 44-92) *)

Module Coordinator.

(** Where a task running [upload_chunk] stands between two of its awaits;
    [retry_count] is the local variable of that name. *)
Inductive Pc :=
| Waiting (retry_count : nat)
    (** at the loop test of line 52, not holding the semaphore *)
| InFlight (retry_count : nat)
    (** inside [async with semaphore], [session.post] awaiting its reply *)
| Backoff (retry_count : nat) (seconds : Q)
    (** inside [async with semaphore], in [asyncio.sleep] *)
| Finished (o : Outcome).

Record Task := {
  part : nat;
  chunk : list byte;
  pc : Pc
}.

(** [permits] is the value of [asyncio.Semaphore(MAX_CONCURRENT_UPLOADS)];
    [returned] says that [asyncio.gather] has handed control back. *)
Record State := {
  tasks : list Task;
  permits : nat;
  returned : bool
}.

Definition at_pc (t : Task) (p : Pc) : Task :=
  {| part := part t; chunk := chunk t; pc := p |}.

(** Lines 55-71: where the reply [r] to an attempt takes the task. *)
Definition on_reply (retry_count : nat) (r : Response) : Pc :=
  if decide (status r = 200) then Finished Uploaded
  else if decide (status r = 429)
       then Backoff retry_count (upload_retry_after r)
       else Finished (RemoteError (status r) (text r)).

(** The permits given back when the reply [r] has been handled: a 429 keeps
    its permit through the sleep. *)
Definition released (r : Response) : nat :=
  if decide (status r = 200) then 1
  else if decide (status r = 429) then 0 else 1.

Definition holds_permit (t : Task) : bool :=
  match pc t with
  | InFlight _ | Backoff _ _ => true
  | Waiting _ | Finished _ => false
  end.

Definition in_remote_call (t : Task) : bool :=
  match pc t with
  | InFlight _ => true
  | _ => false
  end.

Definition terminal (t : Task) : bool :=
  match pc t with
  | Finished _ => true
  | _ => false
  end.

(** One move of the event loop: task [i] passes an await, or the gather
    completes.  Which task moves, and what the remote replies, is open. *)
Inductive step : State → State → Prop :=
| step_acquire st i t n :
    tasks st !! i = Some t → pc t = Waiting n →
    n < MAX_RETRIES → 0 < permits st →
    step st {| tasks := <[i := at_pc t (InFlight n)]> (tasks st);
               permits := permits st - 1;
               returned := returned st |}
| step_give_up st i t n :
    tasks st !! i = Some t → pc t = Waiting n →
    ¬ n < MAX_RETRIES →
    step st {| tasks := <[i := at_pc t (Finished TransferFailed)]> (tasks st);
               permits := permits st;
               returned := returned st |}
| step_reply st i t n r :
    tasks st !! i = Some t → pc t = InFlight n →
    step st {| tasks := <[i := at_pc t (on_reply n r)]> (tasks st);
               permits := permits st + released r;
               returned := returned st |}
| step_wake st i t n d :
    tasks st !! i = Some t → pc t = Backoff n d →
    step st {| tasks := <[i := at_pc t (Waiting (S n))]> (tasks st);
               permits := permits st + 1;
               returned := returned st |}
| step_join st :
    Forall (λ t, terminal t = true) (tasks st) → returned st = false →
    step st {| tasks := tasks st; permits := permits st; returned := true |}.

(** [upload_async] after line 91: one task per chunk read, none started. *)
Definition initial (chunk_size : nat) (content : list byte) : State :=
  {| tasks := (λ pc, {| part := pc.1; chunk := pc.2; pc := Waiting 0 |})
                <$> read_chunks chunk_size 1 content;
     permits := MAX_CONCURRENT_UPLOADS;
     returned := false |}.

Definition reachable (chunk_size : nat) (content : list byte)
    (st : State) : Prop :=
  rtc step (initial chunk_size content) st.

(** The work a task still has in it: every move lowers it. *)
Definition task_fuel (t : Task) : nat :=
  match pc t with
  | Waiting n => 3 * (MAX_RETRIES - n) + 1
  | InFlight n => 3 * (MAX_RETRIES - n)
  | Backoff n _ => 3 * (MAX_RETRIES - n) - 1
  | Finished _ => 0
  end.

Definition fuel (st : State) : nat :=
  sum_list_with task_fuel (tasks st) + (if returned st then 0 else 1).

Definition weight (p : Task → bool) (t : Task) : nat :=
  if p t then 1 else 0.

(** The tasks inside [async with semaphore]. *)
Definition holders (st : State) : nat :=
  sum_list_with (weight holds_permit) (tasks st).

(** The tasks whose [session.post] is awaiting its reply. *)
Definition in_flight (st : State) : nat :=
  sum_list_with (weight in_remote_call) (tasks st).

(** An attempt is only ever under way below the retry ceiling. *)
Definition below_ceiling (t : Task) : Prop :=
  match pc t with
  | InFlight n | Backoff n _ => n < MAX_RETRIES
  | Waiting _ | Finished _ => True
  end.

(** What holds of every state the upload can be in. *)
Record invariant (chunk_size : nat) (content : list byte) (st : State) :
    Prop := {
  inv_permits : permits st + holders st = MAX_CONCURRENT_UPLOADS;
  inv_ceiling : Forall below_ceiling (tasks st);
  inv_returned : returned st = true → Forall (λ t, terminal t = true) (tasks st);
  inv_chunks :
    (λ t, (part t, chunk t)) <$> tasks st = read_chunks chunk_size 1 content
}.

End Coordinator.

Import Coordinator.

(** ** A remote that keeps what it is sent *)

Module Store.

(** The channel as the remote holds it, newest message first: each message
    as the history shows it, with the bytes its attachment url leads to.
    Ids are handed out in order of arrival, and the url of an attachment is
    the id of its message. *)
Definition next_id (channel : list (Message * list byte)) : string :=
  pretty (S (length channel)).

(** The channel after a POST of [fc.2] under the name [fc.1]. *)
Definition receive (channel : list (Message * list byte))
    (fc : string * list byte) : list (Message * list byte) :=
  ({| id := next_id channel;
      attachments := [{| filename := fc.1;
                         size := N.of_nat (length fc.2);
                         url := next_id channel |}] |},
   fc.2) :: channel.

(** A remote that answers every POST with 200. *)
Definition accept (k : nat) (filename : string) (chunk : list byte) :
    Response :=
  {| status := 200; text := ""; json := None |}.

(** The channel after the POSTs of [evs], all of them accepted. *)
Definition after (evs : list Event) (channel : list (Message * list byte)) :
    list (Message * list byte) :=
  foldl receive channel (posted evs).

(** The bytes kept under the url [u]. *)
Fixpoint stored_at (u : string) (channel : list (Message * list byte)) :
    option (list byte) :=
  match channel with
  | [] => None
  | mb :: channel' =>
      if decide (id mb.1 = u) then Some mb.2 else stored_at u channel'
  end.

(** The reply to a GET of the url [u]. *)
Definition fetch (channel : list (Message * list byte)) (k : nat)
    (u : string) : Fetched :=
  match stored_at u channel with
  | Some bytes => {| fetch_status := 200; fetch_text := ""; content := bytes |}
  | None => {| fetch_status := 404; fetch_text := "Not Found"; content := [] |}
  end.

(** Part [pc.1] of the file [name] as the channel holds it once it is the
    [pc.1]-th message to arrive. *)
Definition stored (name : string) (pc : nat * list byte) :
    Message * list byte :=
  ({| id := pretty pc.1;
      attachments := [{| filename := part_name name pc.1;
                         size := N.of_nat (length pc.2);
                         url := pretty pc.1 |}] |},
   pc.2).

(** The [(filename, url)] pair under which a scan shows that part. *)
Definition shown (name : string) (pc : nat * list byte) : string * string :=
  (part_name name pc.1, pretty pc.1).

End Store.

Import Store.

(** ** The size shown for a file (script.py, lines 119-124) *)

From Stdlib Require Qround Qabs Lqa.

Module Format.

(** The nearest integer, a tie going to the even one: the rounding of
    Python's float formatting, which rounds the exact binary value. *)
Definition round_half_even (q : Q) : Z :=
  let f := Qround.Qfloor q in
  match (q - inject_Z f ?= 1 # 2)%Q with
  | Lt => f
  | Gt => (f + 1)%Z
  | Eq => if Z.even f then f else (f + 1)%Z
  end.

(** [h] hundredths written as a number with two decimals, [h >= 0]. *)
Definition hundredths (h : Z) : string :=
  pretty (h / 100)%Z +:+ "." +:+ pretty (h / 10 mod 10)%Z
  +:+ pretty (h mod 10)%Z.

(** [f"{num:.2f}"] for [num >= 0]. *)
Definition fixed2 (num : Q) : string :=
  hundredths (round_half_even (num * 100)).

(** The loop of [sizeof_fmt] over the units still to try.  [num] is the
    float of the source as the rational it stands for: the sizes handed in
    are integers, and below 2^53 the conversion to float and every division
    by 1024.0 are exact. *)
Fixpoint sizeof_fmt_loop (units : list string) (num : Q) (suffix : string) :
    string :=
  match units with
  | [] => fixed2 num +:+ " P" +:+ suffix
  | unit :: units' =>
      if Qlt_le_dec (Qabs.Qabs num) 1024
      then fixed2 num +:+ " " +:+ unit +:+ suffix
      else sizeof_fmt_loop units' (num / 1024) suffix
  end.

(** [sizeof_fmt(num)] as [list_files] calls it (line 144): [num] a sum of
    attachment sizes, [suffix] left at its default. *)
Definition sizeof_fmt (num : N) : string :=
  sizeof_fmt_loop [""; "K"; "M"; "G"; "T"] (inject_Z (Z.of_N num)) "B".

(** The units in the order in which they are tried, the last resort
    included. *)
Definition unit_of (k : nat) : string :=
  nth k [""; "K"; "M"; "G"; "T"; "P"] "".

End Format.

Import Format.

(** * Theorems *)

(** ** The chunker *)

Lemma CHUNK_SIZE_pos : 0 < N.to_nat CHUNK_SIZE.
Proof. unfold CHUNK_SIZE. lia. Qed.

Section Chunking.

Context (chunk_size : nat) (chunk_size_pos : 0 < chunk_size).

Lemma read_chunks_nil part : read_chunks chunk_size part [] = [].
Proof. simp read_chunks. by destruct chunk_size. Qed.

Lemma read_chunks_cons part rest :
  rest ≠ [] →
  read_chunks chunk_size part rest =
    (part, take chunk_size rest) ::
    read_chunks chunk_size (S part) (drop chunk_size rest).
Proof.
  intros Hne. destruct rest as [|b rest]; [done|].
  destruct chunk_size as [|c]; [lia|].
  rewrite read_chunks_equation_1. by simpl.
Qed.

(** Induction along the reads of the file. *)
Lemma read_ind (P : list byte → Prop) :
  P [] →
  (∀ rest, rest ≠ [] → P (drop chunk_size rest) → P rest) →
  ∀ rest, P rest.
Proof.
  intros Hnil Hstep rest.
  induction (Nat.lt_wf_0_projected length rest) as [rest _ IH].
  destruct (decide (rest = [])) as [->|Hne]; [done|].
  apply Hstep; [done|]. apply IH. rewrite length_drop.
  destruct rest; [done|simpl; lia].
Qed.

Lemma read_chunks_concat part rest :
  concat (read_chunks chunk_size part rest).*2 = rest.
Proof.
  revert part. induction rest as [|rest Hne IH] using read_ind; intros part.
  - by rewrite read_chunks_nil.
  - rewrite read_chunks_cons by done. simpl. rewrite IH. apply take_drop.
Qed.

Lemma ceil_div_step n :
  0 < n → S ((n - chunk_size + chunk_size - 1) / chunk_size)
          = (n + chunk_size - 1) / chunk_size.
Proof.
  intros Hn. destruct (decide (chunk_size ≤ n)) as [Hle|Hlt].
  - replace (n + chunk_size - 1) with ((n - 1) + 1 * chunk_size) by lia.
    rewrite Nat.div_add by lia.
    replace (n - chunk_size + chunk_size - 1) with (n - 1) by lia. lia.
  - replace (n - chunk_size + chunk_size - 1) with (chunk_size - 1) by lia.
    rewrite Nat.div_small by lia.
    apply (Nat.div_unique _ _ _ (n - 1)); lia.
Qed.

Lemma read_chunks_length part rest :
  length (read_chunks chunk_size part rest)
  = (length rest + chunk_size - 1) / chunk_size.
Proof.
  revert part. induction rest as [|rest Hne IH] using read_ind; intros part.
  - rewrite read_chunks_nil. simpl. by rewrite Nat.div_small by lia.
  - rewrite read_chunks_cons by done. simpl. rewrite IH, length_drop.
    apply ceil_div_step. destruct rest; [done|simpl; lia].
Qed.

Lemma read_chunks_parts part rest :
  (read_chunks chunk_size part rest).*1
  = seq part (length (read_chunks chunk_size part rest)).
Proof.
  revert part. induction rest as [|rest Hne IH] using read_ind; intros part.
  - by rewrite read_chunks_nil.
  - rewrite read_chunks_cons by done. simpl. by rewrite IH.
Qed.

(** Chunk [i] is the slice of the file that starts at [i * chunk_size]. *)
Lemma read_chunks_lookup part rest i c :
  (read_chunks chunk_size part rest).*2 !! i = Some c →
  c = take chunk_size (drop (i * chunk_size) rest).
Proof.
  revert part i.
  induction rest as [|rest Hne IH] using read_ind; intros part i.
  - by rewrite read_chunks_nil.
  - rewrite read_chunks_cons by done. destruct i as [|i]; simpl.
    + by intros [= <-].
    + intros Hc%IH. by rewrite drop_drop in Hc.
Qed.

Lemma ceil_div_bounds n :
  0 < n →
  chunk_size * ((n + chunk_size - 1) / chunk_size - 1) < n
  ∧ n ≤ chunk_size * ((n + chunk_size - 1) / chunk_size).
Proof.
  intros Hn.
  pose proof (Nat.Div0.mul_div_le (n + chunk_size - 1) chunk_size).
  pose proof (Nat.mul_succ_div_gt (n + chunk_size - 1) chunk_size).
  nia.
Qed.

Lemma last_chunk_length n :
  0 < n →
  n - chunk_size * ((n + chunk_size - 1) / chunk_size - 1)
  = if decide (n mod chunk_size = 0) then chunk_size else n mod chunk_size.
Proof.
  intros Hn.
  pose proof (Nat.div_mod_eq n chunk_size) as Hdm.
  pose proof (Nat.mod_upper_bound n chunk_size ltac:(lia)) as Hr.
  set (q := n / chunk_size) in *. set (r := n mod chunk_size) in *.
  case_decide as Hz.
  - assert ((n + chunk_size - 1) / chunk_size = q) as ->.
    { symmetry. apply (Nat.div_unique _ _ _ (chunk_size - 1)); lia. }
    destruct q; nia.
  - assert ((n + chunk_size - 1) / chunk_size = S q) as ->.
    { symmetry. apply (Nat.div_unique _ _ _ (r - 1)); lia. }
    simpl. nia.
Qed.

Lemma upload_sync_loop_nil name post part :
  upload_sync_loop chunk_size name post part [] = [].
Proof. rewrite upload_sync_loop_equation_1. by destruct chunk_size. Qed.

Lemma upload_sync_loop_cons name post part rest :
  rest ≠ [] →
  upload_sync_loop chunk_size name post part rest =
    let chunk := take chunk_size rest in
    let r := post (part - 1) (part_name name part) chunk in
    if decide (status r = 200)
    then Post (part_name name part) chunk :: Progress ::
         upload_sync_loop chunk_size name post (S part)
           (drop chunk_size rest)
    else [Post (part_name name part) chunk;
          Print (PartError part (status r) (text r))].
Proof.
  intros Hne. destruct rest as [|b rest]; [done|].
  destruct chunk_size as [|c]; [lia|].
  rewrite upload_sync_loop_equation_1. simpl.
  unfold upload_sync_loop_unfold_clause_1_clause_2.
  by destruct (decide _).
Qed.

(** When every reply is 200, the serial upload posts every chunk of the
    file under its part name. *)
Lemma upload_sync_loop_posted name post part rest :
  (∀ k f c, status (post k f c) = 200) →
  posted (upload_sync_loop chunk_size name post part rest)
  = (λ pc, (part_name name pc.1, pc.2)) <$> read_chunks chunk_size part rest.
Proof.
  intros Hok. revert part.
  induction rest as [|rest Hne IH] using read_ind; intros part.
  - by rewrite upload_sync_loop_nil, read_chunks_nil.
  - rewrite upload_sync_loop_cons, read_chunks_cons by done. simpl.
    rewrite decide_True by apply Hok. unfold posted in *. simpl.
    by rewrite IH.
Qed.

End Chunking.

(** C1.  Reading a file of [S > 0] bytes in chunks of [C > 0] bytes gives
    [ceil(S/C)] parts numbered 1, 2, ... in the order read; every part but
    the last has [C] bytes, the last has [S mod C] bytes, or [C] when [C]
    divides [S] (so no part is empty); the parts joined in order are the
    file.  These pairs are the tasks [upload_async] creates, and the parts
    [upload_sync] posts when every reply is 200. *)
Theorem chunking_round_trip (chunk_size : nat) (content : list byte) :
  0 < chunk_size → 0 < length content →
  let parts := read_chunks chunk_size 1 content in
  length parts = (length content + chunk_size - 1) / chunk_size
  ∧ parts.*1 = seq 1 (length parts)
  ∧ (∀ i c, i + 1 < length parts → parts.*2 !! i = Some c →
       length c = chunk_size)
  ∧ (∃ c, last parts.*2 = Some c ∧ 0 < length c ∧
       length c = if decide (length content mod chunk_size = 0)
                  then chunk_size else length content mod chunk_size)
  ∧ concat parts.*2 = content
  ∧ (λ t, (part t, chunk t)) <$> tasks (initial chunk_size content) = parts
  ∧ (∀ name post, (∀ k f c, status (post k f c) = 200) →
       posted (upload_sync chunk_size name (Some content) post)
       = (λ pc, (part_name name pc.1, pc.2)) <$> parts).
Proof.
  intros HC HS parts.
  pose proof (read_chunks_length chunk_size HC 1 content) as Hlen.
  pose proof (ceil_div_bounds chunk_size HC _ HS) as [Hlo Hhi].
  fold parts in Hlen. rewrite <- Hlen in Hlo, Hhi.
  split_and!.
  - done.
  - by apply read_chunks_parts.
  - intros i c Hi Hc.
    apply (read_chunks_lookup chunk_size HC) in Hc as ->.
    rewrite length_take, length_drop. nia.
  - assert (is_Some (last parts.*2)) as [c Hc].
    { rewrite last_is_Some. intros Hnil.
      apply (f_equal length) in Hnil. rewrite length_fmap in Hnil.
      simpl in Hnil. nia. }
    exists c. split; [done|].
    rewrite last_lookup, length_fmap in Hc.
    apply (read_chunks_lookup chunk_size HC) in Hc as ->.
    rewrite length_take, length_drop.
    rewrite <- (last_chunk_length chunk_size HC _ HS), <- Hlen.
    replace (pred (length parts)) with (length parts - 1) by lia. nia.
  - by apply read_chunks_concat.
  - unfold initial. simpl. rewrite <- list_fmap_compose.
    etrans; [|apply list_fmap_id]. apply list_fmap_ext.
    by intros ? [].
  - intros name post Hok. by apply upload_sync_loop_posted.
Qed.

Lemma chunking_round_trip_witness :
  let content := [Byte.x61; Byte.x62; Byte.x63; Byte.x64; Byte.x65;
                  Byte.x66; Byte.x67] in
  read_chunks 3 1 content
  = [(1, [Byte.x61; Byte.x62; Byte.x63]);
     (2, [Byte.x64; Byte.x65; Byte.x66]); (3, [Byte.x67])]
  ∧ length (read_chunks 3 1 content) = (length content + 3 - 1) / 3.
Proof.
  split; [reflexivity|].
  apply (chunking_round_trip 3); simpl; lia.
Defined.

(** ** Part names *)

Section Names.

Implicit Types s b d rest : string.

Lemma app_cons c s1 s2 : String c s1 +:+ s2 = String c (s1 +:+ s2).
Proof. reflexivity. Qed.

Lemma app_empty_l s : "" +:+ s = s.
Proof. reflexivity. Qed.

Lemma app_empty_r s : s +:+ "" = s.
Proof. induction s; [done|]. by rewrite app_cons, IHs. Qed.

Lemma app_assoc_s s1 s2 s3 : (s1 +:+ s2) +:+ s3 = s1 +:+ s2 +:+ s3.
Proof. induction s1; [done|]. by rewrite !app_cons, IHs1. Qed.

Lemma length_app_s s1 s2 :
  String.length (s1 +:+ s2) = String.length s1 + String.length s2.
Proof. induction s1; [done|]. rewrite app_cons. simpl. by rewrite IHs1. Qed.

Lemma at_dollar_spec rest : at_dollar rest = true ↔ dollar_rest rest.
Proof.
  unfold dollar_rest. destruct rest as [|c [|c' rest]]; simpl.
  - by split; [left|].
  - rewrite bool_decide_eq_true. split; [by intros ->; right|].
    by intros [?|[= ->]].
  - by split; [|intros [?|?]].
Qed.

Lemma span_digits_app d rest :
  all_digits d = true → dollar_rest rest →
  span_digits (d +:+ rest) = (d, rest).
Proof.
  intros Hd Hrest. induction d as [|c d IH].
  - by destruct Hrest as [-> | ->].
  - simpl in Hd. apply andb_true_iff in Hd as [Hc Hd].
    rewrite app_cons. simpl. by rewrite Hc, IH.
Qed.

Lemma span_digits_spec s d rest :
  span_digits s = (d, rest) → s = d +:+ rest ∧ all_digits d = true.
Proof.
  revert d rest. induction s as [|c s IH]; intros d rest; simpl.
  - by intros [= <- <-].
  - destruct (is_digit c) eqn:Hc.
    + destruct (span_digits s) as [d' r']. intros [= <- <-].
      destruct (IH _ _ eq_refl) as [-> Hd'].
      split; [done|]. simpl. by rewrite Hc.
    + by intros [= <- <-].
Qed.

Lemma literal_Some p s r : literal p s = Some r ↔ s = p +:+ r.
Proof.
  revert s. induction p as [|c p IH]; intros s; simpl.
  - rewrite app_empty_l. naive_solver.
  - destruct s as [|c' s]; [done|]. rewrite app_cons.
    case_decide as Hc; [subst c'; rewrite IH|]; split; congruence.
Qed.

Lemma match_part_Some s d rest :
  match_part s = Some (d, rest) ↔
  s = ".part" +:+ d +:+ rest ∧ d ≠ "" ∧ all_digits d = true
  ∧ dollar_rest rest.
Proof.
  unfold match_part. split.
  - destruct (literal ".part" s) as [r|] eqn:Hr; [|done].
    apply literal_Some in Hr as ->.
    destruct (span_digits r) as [d' rest'] eqn:Hspan.
    apply span_digits_spec in Hspan as [-> Hd'].
    destruct (bool_decide (d' ≠ "")) eqn:Hne; [|done].
    destruct (at_dollar rest') eqn:Hrest; [|done].
    intros [= <- <-].
    apply bool_decide_eq_true in Hne. apply at_dollar_spec in Hrest.
    done.
  - intros (-> & Hne & Hd & Hrest).
    rewrite (proj2 (literal_Some _ _ (d +:+ rest))) by done.
    rewrite span_digits_app by done.
    rewrite bool_decide_eq_true_2 by done.
    apply at_dollar_spec in Hrest. by rewrite Hrest.
Qed.

Lemma occurs_app c s1 s2 : occurs c (s1 +:+ s2) = occurs c s1 || occurs c s2.
Proof.
  induction s1 as [|c' s1 IH]; [done|].
  rewrite app_cons. simpl. by rewrite IH, orb_assoc.
Qed.

Lemma occurs_digits d : all_digits d = true → occurs "." d = false.
Proof.
  induction d as [|c d IH]; [done|]. simpl.
  intros [Hc Hd]%andb_true_iff. rewrite IH by done.
  rewrite bool_decide_eq_false_2; [done|].
  intros Hdot. subst c. discriminate Hc.
Qed.

Lemma occurs_dollar rest : dollar_rest rest → occurs "." rest = false.
Proof. by intros [-> | ->]. Qed.

(** A match runs to the end of the name (or to its final newline) and has
    its only dot in front, so none starts where a dot is still to come
    after the first character. *)
Lemma match_part_before_dot c x y :
  match_part (String c (x +:+ "." +:+ y)) = None.
Proof.
  destruct (match_part _) as [[d rest]|] eqn:Hm; [|done].
  apply match_part_Some in Hm as (Heq & _ & Hd & Hrest).
  change (".part" +:+ d +:+ rest)
    with (String "." ("part" +:+ d +:+ rest)) in Heq.
  injection Heq as _ Heq. apply (f_equal (occurs ".")) in Heq.
  rewrite !occurs_app, (occurs_digits d Hd), (occurs_dollar rest Hrest) in Heq.
  simpl in Heq. by rewrite orb_true_r in Heq.
Qed.

Lemma match_part_before_part c x y :
  match_part (String c (x +:+ ".part" +:+ y)) = None.
Proof. exact (match_part_before_dot c x ("part" +:+ y)). Qed.

Lemma re_sub_part_scan c s :
  re_sub_part 0 (String c s)
  = match match_part (String c s) with
    | Some (d, _) => re_sub_part (4 + String.length d) s
    | None => String c (re_sub_part 0 s)
    end.
Proof. reflexivity. Qed.

Lemma re_search_part_scan c s :
  re_search_part (String c s)
  = match match_part (String c s) with
    | Some (d, _) => Some d
    | None => re_search_part s
    end.
Proof. reflexivity. Qed.

Lemma re_sub_part_skip x k y :
  re_sub_part (String.length x + k) (x +:+ y) = re_sub_part k y.
Proof. induction x as [|c x IH]; [done|]. by rewrite app_cons. Qed.

Lemma re_sub_part_dollar rest : dollar_rest rest → re_sub_part 0 rest = rest.
Proof. by intros [-> | ->]. Qed.

(** The suffix is removed wherever it matches: at the very end or before a
    final newline. *)
Lemma clean_filename_part_strips b d rest :
  d ≠ "" → all_digits d = true → dollar_rest rest →
  clean_filename_part (b +:+ ".part" +:+ d +:+ rest) = b +:+ rest.
Proof.
  intros Hne Hd Hrest. unfold clean_filename_part.
  induction b as [|c b IH].
  - rewrite !app_empty_l.
    pose proof (proj2 (match_part_Some (".part" +:+ d +:+ rest) d rest)) as Hm.
    change (".part" +:+ d +:+ rest)
      with (String "." ("part" +:+ d +:+ rest)) in *.
    simpl. rewrite Hm by done.
    change ("part" +:+ d +:+ rest)
      with (String "p" (String "a" (String "r" (String "t" (d +:+ rest))))).
    simpl. rewrite app_empty_l, <- (Nat.add_0_r (String.length d)), re_sub_part_skip.
    by apply re_sub_part_dollar.
  - rewrite !(app_cons c b), re_sub_part_scan, match_part_before_part.
    by rewrite IH.
Qed.

Lemma re_search_part_finds b d rest :
  d ≠ "" → all_digits d = true → dollar_rest rest →
  re_search_part (b +:+ ".part" +:+ d +:+ rest) = Some d.
Proof.
  intros Hne Hd Hrest. induction b as [|c b IH].
  - rewrite app_empty_l.
    pose proof (proj2 (match_part_Some (".part" +:+ d +:+ rest) d rest)) as Hm.
    change (".part" +:+ d +:+ rest)
      with (String "." ("part" +:+ d +:+ rest)) in *.
    by rewrite re_search_part_scan, Hm.
  - by rewrite (app_cons c b), re_search_part_scan, match_part_before_part.
Qed.

Lemma re_search_part_Some s d :
  re_search_part s = Some d →
  ∃ b rest, s = b +:+ ".part" +:+ d +:+ rest ∧ d ≠ ""
            ∧ all_digits d = true ∧ dollar_rest rest.
Proof.
  induction s as [|c s IH]; [done|].
  - rewrite re_search_part_scan.
    destruct (match_part (String c s)) as [[d' rest]|] eqn:Hm.
    + intros [= ->]. apply match_part_Some in Hm. by exists "", rest.
    + intros (b & rest & -> & ?)%IH. by exists (String c b), rest.
Qed.

Lemma re_search_part_None s :
  re_search_part s = None → clean_filename_part s = s.
Proof.
  unfold clean_filename_part. induction s as [|c s IH]; [done|].
  rewrite re_search_part_scan, re_sub_part_scan.
  destruct (match_part (String c s)) as [[d' rest]|]; [done|].
  intros Hs. by rewrite IH.
Qed.

(** [str(part)] is a run of digits that [int] reads back. *)
Lemma pretty_N_char_digit (x : N) :
  (x < 10)%N →
  is_digit (pretty_N_char x) = true ∧ digit_value (pretty_N_char x) = x.
Proof.
  intros Hx.
  assert (x ∈ [0; 1; 2; 3; 4; 5; 6; 7; 8; 9]%N) as Hin.
  { rewrite !elem_of_cons. lia. }
  rewrite !elem_of_cons in Hin.
  repeat (destruct Hin as [->|Hin]; [done|]).
  by apply elem_of_nil in Hin.
Qed.

Lemma pretty_N_go_digits (x : N) s :
  all_digits (pretty_N_go x s) = all_digits s.
Proof.
  revert s. induction (N.lt_wf_0 x) as [x _ IH]; intros s.
  destruct (decide (x = 0)%N) as [->|Hx]; [by rewrite pretty_N_go_0|].
  rewrite pretty_N_go_step by lia.
  rewrite IH by (apply N.div_lt; lia). simpl.
  by destruct (pretty_N_char_digit (x `mod` 10)%N) as [-> _];
    [apply N.mod_upper_bound|].
Qed.

Lemma pretty_N_go_nonempty (x : N) s : s ≠ "" → pretty_N_go x s ≠ "".
Proof.
  revert s. induction (N.lt_wf_0 x) as [x _ IH]; intros s Hs.
  destruct (decide (x = 0)%N) as [->|Hx]; [by rewrite pretty_N_go_0|].
  rewrite pretty_N_go_step by lia.
  apply IH; [apply N.div_lt; lia|done].
Qed.

Lemma pretty_N_go_int (x : N) s : int_go 0 (pretty_N_go x s) = int_go x s.
Proof.
  revert s. induction (N.lt_wf_0 x) as [x _ IH]; intros s.
  destruct (decide (x = 0)%N) as [->|Hx]; [by rewrite pretty_N_go_0|].
  rewrite pretty_N_go_step by lia.
  rewrite IH by (apply N.div_lt; lia). simpl.
  destruct (pretty_N_char_digit (x `mod` 10)%N) as [_ ->];
    [by apply N.mod_upper_bound|].
  f_equal. pose proof (N.div_mod x 10). lia.
Qed.

Lemma pretty_nat_digits (n : nat) :
  pretty n ≠ "" ∧ all_digits (pretty n) = true
  ∧ int (pretty n) = N.of_nat n.
Proof.
  unfold pretty, pretty_nat, pretty, pretty_N, int.
  case_decide as Hn; [by rewrite Hn|].
  rewrite pretty_N_go_step by lia. split_and!.
  - by apply pretty_N_go_nonempty.
  - rewrite pretty_N_go_digits. simpl.
    by destruct (pretty_N_char_digit (N.of_nat n `mod` 10)%N) as [-> _];
      [apply N.mod_upper_bound|].
  - by rewrite <- pretty_N_go_step, pretty_N_go_int by lia.
Qed.

(** A part name gives back the file name and the part number. *)
Lemma part_name_round_trip name (n : nat) :
  clean_filename_part (part_name name n) = name
  ∧ part_key (part_name name n) = N.of_nat n.
Proof.
  destruct (pretty_nat_digits n) as (Hne & Hd & Hint).
  unfold part_name, part_key.
  rewrite <- (app_empty_r (pretty n)).
  rewrite clean_filename_part_strips, re_search_part_finds
    by (done || by left).
  by rewrite !app_empty_r.
Qed.

(** A name is changed only by removing one [.part<digits>] that stands at
    its end or before its final newline. *)
Lemma clean_filename_part_spec s :
  clean_filename_part s = s
  ∨ ∃ b d rest, s = b +:+ ".part" +:+ d +:+ rest ∧ d ≠ ""
      ∧ all_digits d = true ∧ dollar_rest rest
      ∧ clean_filename_part s = b +:+ rest.
Proof.
  destruct (re_search_part s) as [d|] eqn:Hs.
  - right. apply re_search_part_Some in Hs as (b & rest & -> & ? & ? & ?).
    exists b, d, rest. split_and!; try done.
    by apply clean_filename_part_strips.
  - left. by apply re_search_part_None.
Qed.

Lemma has_part_suffix_clean s b d :
  s = b +:+ ".part" +:+ d → d ≠ "" → all_digits d = true →
  clean_filename_part s = b.
Proof.
  intros -> Hne Hd.
  pose proof (clean_filename_part_strips b d "" Hne Hd) as Hc.
  rewrite !app_empty_r in Hc. apply Hc. by left.
Qed.

(** A name that neither carries the suffix nor ends in a newline is left
    as it is. *)
Lemma clean_filename_part_clean s :
  ¬ has_part_suffix s → (∀ b, s ≠ b +:+ String newline "") →
  clean_filename_part s = s.
Proof.
  intros Hno Hnl.
  destruct (clean_filename_part_spec s)
    as [?|(b & d & rest & -> & Hne & Hd & [-> | ->] & _)]; [done|..].
  - destruct Hno. exists b, d. by rewrite app_empty_r.
  - destruct (Hnl (b +:+ ".part" +:+ d)). by rewrite !app_assoc_s.
Qed.

End Names.

(** C2 (the code departs from the claim).  The name [a.part1] followed by a
    newline does not end in [.part<digits>], so the claim has it returned
    unchanged and its [.part1], not being at the end, left untouched.
    The pattern ends in [$], which also matches before a final newline:
    [clean_filename_part] removes the [.part1] and returns [a] followed by
    the newline. *)
Theorem clean_filename_part_final_newline :
  let s := "a.part1" +:+ String newline "" in
  ¬ has_part_suffix s
  ∧ clean_filename_part s = "a" +:+ String newline ""
  ∧ clean_filename_part s ≠ s.
Proof.
  split_and!; [|reflexivity|by vm_compute].
  intros (b & d & Heq & Hne & Hd).
  pose proof (has_part_suffix_clean _ b d Heq Hne Hd) as Hb.
  vm_compute in Hb. subst b. by vm_compute in Heq.
Qed.

(** ** Retry and backoff on upload *)

Section UploadRetry.

Context (post : nat → Response) (filename : string) (chunk : list byte)
  (part : nat).

Lemma upload_chunk_loop_unfold retry_count :
  upload_chunk_loop post filename chunk part retry_count =
    if decide (retry_count < MAX_RETRIES) then
      let r := post retry_count in
      if decide (status r = 200) then (Uploaded, [Post filename chunk; Progress])
      else if decide (status r = 429) then
        and_then
          [Post filename chunk;
           Print (RateLimited part (upload_retry_after r));
           Sleep (upload_retry_after r)]
          (upload_chunk_loop post filename chunk part (S retry_count))
      else (RemoteError (status r) (text r),
            [Post filename chunk; Print (PartError part (status r) (text r))])
    else (TransferFailed, [Print (UploadFailed part)]).
Proof.
  rewrite upload_chunk_loop_equation_1.
  destruct (decide (retry_count < MAX_RETRIES)); simpl; [|done].
  unfold upload_chunk_loop_unfold_clause_1_clause_2.
  destruct (decide (status (post retry_count) = 200)); simpl; [done|].
  by destruct (decide (status (post retry_count) = 429)).
Qed.

Lemma and_then_app {A} evs1 evs2 (k : A * list Event) :
  and_then evs1 (and_then evs2 k) = and_then (evs1 ++ evs2) k.
Proof. unfold and_then. simpl. by rewrite app_assoc. Qed.

(** [n] replies of 429 in a row are slept through one by one, as long as
    the ceiling allows. *)
Lemma upload_chunk_loop_backoff k n :
  k + n ≤ MAX_RETRIES →
  (∀ i, k ≤ i < k + n → status (post i) = 429) →
  upload_chunk_loop post filename chunk part k
  = and_then (backoff post filename chunk part k n)
      (upload_chunk_loop post filename chunk part (k + n)).
Proof.
  revert k. induction n as [|n IH]; intros k Hle Hlim.
  - rewrite Nat.add_0_r. by destruct (upload_chunk_loop _ _ _ _ _).
  - rewrite upload_chunk_loop_unfold.
    rewrite decide_True by lia.
    pose proof (Hlim k ltac:(lia)) as Hk. simpl.
    rewrite decide_False, decide_True by (done || by rewrite Hk).
    rewrite (IH (S k)) by (lia || intros; apply Hlim; lia).
    rewrite and_then_app. by replace (S k + n) with (k + S n) by lia.
Qed.

End UploadRetry.

(** C3 (as the code has it).  In the concurrent path, [upload_chunk] answers
    a 429 by sleeping the [retry_after] of the body, or 0.5 s when the body
    is no JSON object or has no such field, and posting again; after five
    429 replies in a row it gives up ([TransferFailed]) without a sixth
    attempt; a reply that is neither 200 nor 429 ends the part at once
    ([RemoteError]) with its status and body printed.  In the serial path
    there is no retry: any reply other than 200, a 429 included, is printed
    with its status and body and ends the upload.  Here [n] is the number
    of 429 replies the part meets first. *)
Theorem upload_retry_policy (post : nat → Response) (name : string)
    (chunk : list byte) (part n : nat) :
  (∀ i, i < n → status (post i) = 429) →
  let filename := part_name name part in
  let slept := backoff post filename chunk part 0 n in
  (∀ r, upload_retry_after r
        = match json r with Some (Some d) => d | _ => (1 # 2)%Q end)
  ∧ (n < MAX_RETRIES → status (post n) = 200 →
     upload_chunk post name chunk part
     = (Uploaded, slept ++ [Post filename chunk; Progress]))
  ∧ (n < MAX_RETRIES → status (post n) ≠ 200 → status (post n) ≠ 429 →
     upload_chunk post name chunk part
     = (RemoteError (status (post n)) (text (post n)),
        slept ++ [Post filename chunk;
                  Print (PartError part (status (post n)) (text (post n)))]))
  ∧ (n = MAX_RETRIES →
     upload_chunk post name chunk part
     = (TransferFailed, slept ++ [Print (UploadFailed part)]))
  ∧ (∀ chunk_size sync_post rest,
       0 < chunk_size → rest ≠ [] →
       let r := sync_post (part - 1) filename (take chunk_size rest) in
       status r ≠ 200 →
       upload_sync_loop chunk_size name sync_post part rest
       = [Post filename (take chunk_size rest);
          Print (PartError part (status r) (text r))]).
Proof.
  intros Hlim filename slept.
  assert (n ≤ MAX_RETRIES →
    upload_chunk post name chunk part
    = and_then slept (upload_chunk_loop post filename chunk part n)) as Hrun.
  { intros Hn. unfold upload_chunk. fold filename.
    rewrite (upload_chunk_loop_backoff _ _ _ _ 0 n); [done|lia|].
    intros i Hi. apply Hlim. lia. }
  split_and!.
  - intros r. unfold upload_retry_after. by repeat case_match.
  - intros Hn Hok. rewrite Hrun, upload_chunk_loop_unfold by lia.
    by rewrite decide_True, decide_True by done.
  - intros Hn H200 H429. rewrite Hrun, upload_chunk_loop_unfold by lia.
    by rewrite decide_True, decide_False, decide_False by done.
  - intros ->. rewrite Hrun, upload_chunk_loop_unfold by lia.
    rewrite decide_False by lia. unfold and_then. simpl.
    by rewrite app_nil_r || done.
  - intros chunk_size sync_post rest Hpos Hne r Hr.
    rewrite upload_sync_loop_cons by done. simpl.
    by rewrite decide_False by done.
Qed.

Lemma upload_retry_policy_witness :
  let post := λ i, if decide (i = 0)
                   then {| status := 429; text := "slow down";
                           json := Some (Some (1 # 10)%Q) |}
                   else {| status := 200; text := "ok"; json := None |} in
  upload_chunk post "f" [Byte.x01] 1
  = (Uploaded,
     [Post "f.part1" [Byte.x01]; Print (RateLimited 1 (1 # 10));
      Sleep (1 # 10); Post "f.part1" [Byte.x01]; Progress]).
Proof.
  intros post.
  assert (∀ i, i < 1 → status (post i) = 429) as Hone.
  { intros i Hi. by replace i with 0 by lia. }
  destruct (upload_retry_policy post "f" [Byte.x01] 1 1 Hone)
    as (_ & Hok & _).
  apply Hok; [unfold MAX_RETRIES; lia | reflexivity].
Defined.

Lemma upload_sync_429_not_retried :
  let reply := {| status := 429; text := "slow down";
                  json := Some (Some (1 # 10)%Q) |} in
  let evs := upload_sync 2 "f" (Some [Byte.x01; Byte.x02; Byte.x03])
               (λ _ _ _, reply) in
  evs = [Post "f.part1" [Byte.x01; Byte.x02];
         Print (PartError 1 429 "slow down")]
  ∧ (¬ ∃ d, Sleep d ∈ evs)
  ∧ length (posted evs) = 1.
Proof.
  assert (upload_sync 2 "f" (Some [Byte.x01; Byte.x02; Byte.x03])
            (λ _ _ _, {| status := 429; text := "slow down";
                         json := Some (Some (1 # 10)%Q) |})
          = [Post "f.part1" [Byte.x01; Byte.x02];
             Print (PartError 1 429 "slow down")]) as Hevs
    by reflexivity.
  intros reply evs. subst evs reply. rewrite Hevs.
  split_and!; [done| |done].
  intros [d Hd]. rewrite !elem_of_cons in Hd.
  destruct Hd as [?|[?|Hd]]; [done..|by apply elem_of_nil in Hd].
Qed.

(** ** Retry and backoff on delete *)

Section DeleteRetry.

Context (delete : nat → string → Response) (message_id : string).

Lemma delete_one_unfold k retry_count :
  delete_one delete message_id k retry_count =
    if decide (retry_count < MAX_RETRIES) then
      let r := delete k message_id in
      if decide (status r = 204)
      then ((Gone, S k), [Delete message_id; Progress])
      else if decide (status r = 429) then
        match json r with
        | None => ((Raised, S k), [Delete message_id])
        | Some j =>
            and_then [Delete message_id; Sleep (delete_retry_after j)]
              (delete_one delete message_id (S k) (S retry_count))
        end
      else ((Refused (status r) (text r), S k),
            [Delete message_id;
             Print (DeleteError message_id (status r) (text r)); Progress])
    else ((Exhausted, k), [Print (DeleteFailed message_id); Progress]).
Proof.
  rewrite delete_one_equation_1.
  destruct (decide (retry_count < MAX_RETRIES)); simpl; [|done].
  unfold delete_one_unfold_clause_1_clause_2.
  destruct (decide (status (delete k message_id) = 204)); simpl; [done|].
  destruct (decide (status (delete k message_id) = 429)); simpl; [|done].
  by destruct (json (delete k message_id)).
Qed.

Lemma delete_one_backoff k retry_count n :
  retry_count + n ≤ MAX_RETRIES →
  (∀ i, k ≤ i < k + n →
     status (delete i message_id) = 429
     ∧ json (delete i message_id) ≠ None) →
  delete_one delete message_id k retry_count
  = and_then (delete_backoff delete message_id k n)
      (delete_one delete message_id (k + n) (retry_count + n)).
Proof.
  revert k retry_count. induction n as [|n IH]; intros k retry_count Hle Hlim.
  - rewrite !Nat.add_0_r. by destruct (delete_one _ _ _ _) as [[??]?].
  - rewrite delete_one_unfold.
    rewrite decide_True by lia.
    destruct (Hlim k ltac:(lia)) as [Hk Hj]. simpl.
    rewrite decide_False, decide_True by (done || by rewrite Hk).
    destruct (json (delete k message_id)) as [j|] eqn:Hjson; [|done].
    rewrite (IH (S k) (S retry_count)) by (lia || intros; apply Hlim; lia).
    rewrite and_then_app. unfold delete_backoff at 2. simpl.
    rewrite Hjson. simpl.
    by rewrite !Nat.add_succ_r.
Qed.

End DeleteRetry.

(** C4 (as the code has it).  [delete_file] takes a 204 as success.  A 429
    whose body is a JSON object is slept through and retried, the delay
    being the [retry_after] of the body, or 1 second when the object has no
    such field; after five 429 replies in a row the message is given up
    without a sixth request.  Any other status ends the message at once.
    Here [k] requests were made before, and [n] is the number of 429
    replies the message meets first. *)
Theorem delete_retry_policy (delete : nat → string → Response)
    (message_id : string) (k n : nat) :
  (∀ i, k ≤ i < k + n →
     status (delete i message_id) = 429
     ∧ json (delete i message_id) ≠ None) →
  let slept := delete_backoff delete message_id k n in
  let r := delete (k + n) message_id in
  (∀ d, delete_retry_after (Some d) = d) ∧ delete_retry_after None = 1%Q
  ∧ (n < MAX_RETRIES → status r = 204 →
     delete_one delete message_id k 0
     = ((Gone, S (k + n)), slept ++ [Delete message_id; Progress]))
  ∧ (n < MAX_RETRIES → status r ≠ 204 → status r ≠ 429 →
     delete_one delete message_id k 0
     = ((Refused (status r) (text r), S (k + n)),
        slept ++ [Delete message_id;
                  Print (DeleteError message_id (status r) (text r));
                  Progress]))
  ∧ (n = MAX_RETRIES →
     delete_one delete message_id k 0
     = ((Exhausted, k + n),
        slept ++ [Print (DeleteFailed message_id); Progress])).
Proof.
  intros Hlim slept r.
  assert (n ≤ MAX_RETRIES →
    delete_one delete message_id k 0
    = and_then slept (delete_one delete message_id (k + n) n)) as Hrun.
  { intros Hn. by rewrite (delete_one_backoff _ _ k 0 n). }
  split_and!; [done..| | |].
  - intros Hn Hok. rewrite Hrun, delete_one_unfold by lia.
    by rewrite decide_True, decide_True by done.
  - intros Hn H204 H429. rewrite Hrun, delete_one_unfold by lia.
    by rewrite decide_True, decide_False, decide_False by done.
  - intros ->. rewrite Hrun, delete_one_unfold by lia.
    by rewrite decide_False by lia.
Qed.

Lemma delete_retry_policy_witness :
  let delete := λ (i : nat) (_ : string),
    if decide (i = 0)
    then {| status := 429; text := "slow down";
            json := Some (Some (1 # 4)%Q) |}
    else {| status := 204; text := EmptyString; json := None |} in
  delete_one delete "m1" 0 0
  = ((Gone, 2), [Delete "m1"; Sleep (1 # 4); Delete "m1"; Progress]).
Proof.
  intros delete.
  assert (∀ i, 0 ≤ i < 0 + 1 →
            status (delete i "m1") = 429 ∧ json (delete i "m1") ≠ None)
    as Hone.
  { intros i Hi. by replace i with 0 by lia. }
  destruct (delete_retry_policy delete "m1" 0 1 Hone) as (_ & _ & Hok & _).
  apply Hok; [unfold MAX_RETRIES; lia | reflexivity].
Defined.

Lemma delete_429_default_and_crash :
  delete_one
    (λ i _, if decide (i = 0)
            then {| status := 429; text := "{}"; json := Some None |}
            else {| status := 204; text := EmptyString; json := None |})
    "m1" 0 0
  = ((Gone, 2), [Delete "m1"; Sleep 1; Delete "m1"; Progress])
  ∧ delete_one
      (λ _ _, {| status := 429; text := "<html>"; json := None |})
      "m1" 0 0
    = ((Raised, 1), [Delete "m1"]).
Proof. split; reflexivity. Qed.

(** ** Paging through the history *)

Local Arguments Nat.min : simpl never.

Section Paging.

Context (get : nat → nat → option string → Page) (limit : nat).

Lemma fetch_loop_unfold k messages last_id :
  fetch_loop get limit k messages last_id =
    if decide (length messages < limit) then
      let n := 100 `min` (limit - length messages) in
      let r := get k n (before_param last_id) in
      if decide (page_status r = 200) then
        if decide (batch r = [])
        then (messages, [GetMessages n (before_param last_id)])
        else and_then [GetMessages n (before_param last_id)]
               (fetch_loop get limit (S k) (messages ++ batch r)
                  (id <$> last (batch r)))
      else (messages,
            [GetMessages n (before_param last_id);
             Print (FetchError (page_status r) (page_text r))])
    else (messages, []).
Proof.
  rewrite fetch_loop_equation_1.
  destruct (decide (length messages < limit)); simpl; [|done].
  unfold fetch_loop_unfold_clause_1_clause_2.
  destruct (decide (page_status _ = 200)); simpl; [|done].
  by destruct (decide (batch _ = [])).
Qed.

Lemma requested_and_then {A} n b (run : A * list Event) :
  requested (and_then [GetMessages n b] run).2 = (n, b) :: requested run.2.
Proof. reflexivity. Qed.

(** The scan is a run of pages: each the non-empty answer to the request
    for what is still missing, asked with the cursor of the page before;
    it ends when enough is held, or on the first reply that is no 200 or
    brings nothing. *)
Lemma fetch_loop_pages k messages :
  ∃ pages : list (list Message),
    (∀ j, j < length pages →
       let held := messages ++ concat (take j pages) in
       length held < limit
       ∧ page_status (reply_at get limit (k + j) held) = 200
       ∧ batch (reply_at get limit (k + j) held) ≠ []
       ∧ pages !! j = Some (batch (reply_at get limit (k + j) held)))
    ∧ (let held := messages ++ concat pages in
       limit ≤ length held
       ∨ page_status (reply_at get limit (k + length pages) held) ≠ 200
       ∨ batch (reply_at get limit (k + length pages) held) = [])
    ∧ (fetch_loop get limit k messages (id <$> last messages)).1
      = messages ++ concat pages
    ∧ requested (fetch_loop get limit k messages (id <$> last messages)).2
      = (λ j, page_request limit (messages ++ concat (take j pages))) <$>
        seq 0 (if decide (limit ≤ length (messages ++ concat pages))
               then length pages else S (length pages)).
Proof.
  remember (limit - length messages) as m eqn:Hm. revert k messages Hm.
  induction (lt_wf m) as [m _ IH]. intros k messages ->.
  rewrite fetch_loop_unfold.
  destruct (decide (length messages < limit)) as [Hlt|Hge].
  2:{ exists []. simpl. rewrite !app_nil_r.
      split_and!; [intros; lia | left; lia | done |].
      by rewrite decide_True by lia. }
  simpl.
  change (get k _ _) with (reply_at get limit k messages).
  change (100 `min` _) with (page_request limit messages).1.
  change (before_param _) with (page_request limit messages).2.
  set (r := reply_at get limit k messages).
  destruct (decide (page_status r = 200)) as [H200|Hne].
  2:{ exists []. simpl. rewrite !app_nil_r, Nat.add_0_r.
      split_and!; [intros; lia | right; left; done | done |].
      rewrite decide_False by lia. simpl. by rewrite app_nil_r. }
  destruct (decide (batch r = [])) as [Hemp|Hnemp].
  { exists []. simpl. rewrite !app_nil_r, Nat.add_0_r.
    split_and!; [intros; lia | right; right; done | done |].
    rewrite decide_False by lia. simpl. by rewrite app_nil_r. }
  assert (limit - length (messages ++ batch r) < limit - length messages)
    as Hdec.
  { rewrite length_app. destruct (batch r); [done|simpl; lia]. }
  assert (id <$> last (batch r) = id <$> last (messages ++ batch r)) as ->.
  { rewrite last_app. destruct (last (batch r)) eqn:Hlast; [done|].
    by apply last_None in Hlast. }
  destruct (IH _ Hdec (S k) (messages ++ batch r) eq_refl)
    as (pages & Hpages & Hstop & Hres & Hreq).
  exists (batch r :: pages). split_and!.
  - intros [|j] Hj; simpl in *.
    + rewrite app_nil_r, Nat.add_0_r. done.
    + rewrite Nat.add_succ_r, app_assoc. apply (Hpages j). lia.
  - simpl in *. by rewrite Nat.add_succ_r, app_assoc.
  - simpl. by rewrite Hres, app_assoc.
  - rewrite requested_and_then, Hreq. simpl concat. rewrite !app_assoc.
    assert (∀ c, (λ j, page_request limit
                          (messages ++ concat (take j (batch r :: pages))))
                   <$> seq 0 (S c)
                 = page_request limit messages ::
                   ((λ j, page_request limit
                            ((messages ++ batch r) ++ concat (take j pages)))
                      <$> seq 0 c)) as Hseq.
    { intros c. simpl. rewrite app_nil_r. f_equal.
      rewrite <- fmap_S_seq, <- list_fmap_compose.
      apply list_fmap_ext. intros ? j _. simpl. by rewrite app_assoc. }
    rewrite <- surjective_pairing.
    case_decide; simpl length; by rewrite Hseq.
Qed.

End Paging.

(** C7.  [fetch_messages] gathers a run of pages.  Request [j] asks for
    the messages still missing, 100 at most, and from the second request on
    carries as [before] the id of the last message held; each page kept is
    the non-empty body of a 200 reply received while fewer than [limit]
    messages were held.  Paging ends when [limit] messages are held, or on
    the first reply that is empty or not 200; that reply adds nothing, and
    what was gathered until then is returned, cut to [limit] messages. *)
Theorem fetch_messages_paging (get : nat → nat → option string → Page)
    (limit : nat) :
  ∃ pages : list (list Message),
    let held j := concat (take j pages) in
    requested (fetch_messages get limit).2
    = (λ j, (100 `min` (limit - length (held j)),
             before_param (id <$> last (held j)))) <$>
      seq 0 (if decide (limit ≤ length (concat pages))
             then length pages else S (length pages))
    ∧ Forall (λ q, q.1 ≤ 100) (requested (fetch_messages get limit).2)
    ∧ before_param (id <$> last (held 0)) = None
    ∧ (∀ i, i ≠ "" → before_param (Some i) = Some i)
    ∧ (∀ j, j < length pages →
         length (held j) < limit
         ∧ page_status (reply_at get limit j (held j)) = 200
         ∧ batch (reply_at get limit j (held j)) ≠ []
         ∧ pages !! j = Some (batch (reply_at get limit j (held j))))
    ∧ (limit ≤ length (concat pages)
       ∨ page_status (reply_at get limit (length pages) (concat pages)) ≠ 200
       ∨ batch (reply_at get limit (length pages) (concat pages)) = [])
    ∧ (fetch_messages get limit).1 = take limit (concat pages)
    ∧ length (fetch_messages get limit).1 ≤ limit.
Proof.
  destruct (fetch_loop_pages get limit 0 [])
    as (pages & Hpages & Hstop & Hres & Hreq).
  exists pages. intros held. unfold fetch_messages. simpl in *.
  split_and!.
  - done.
  - rewrite Hreq. apply Forall_fmap, Forall_forall. intros j _.
    apply Nat.le_min_l.
  - done.
  - intros i Hi. simpl. by rewrite decide_False.
  - done.
  - done.
  - by rewrite Hres.
  - rewrite length_take. lia.
Qed.

(** ** Scanning a fixed history *)

Section FixedHistory.

Context (history : list Message) (limit : nat).

Lemma older_than_split pre m post :
  NoDup (id <$> (pre ++ m :: post)) →
  older_than (id m) (pre ++ m :: post) = post.
Proof.
  induction pre as [|m' pre IH]; simpl.
  - intros _. by rewrite decide_True.
  - intros [Hnotin Hnd]%NoDup_cons.
    rewrite decide_False; [by apply IH|].
    intros Heq. apply Hnotin. rewrite Heq, fmap_app. simpl.
    apply elem_of_app. right. by left.
Qed.

(** The page a prefix of the history is answered with: what comes next. *)
Lemma serve_next k messages rest n :
  well_formed history → history = messages ++ rest →
  batch (serve history k n (before_param (id <$> last messages)))
  = take n rest.
Proof.
  intros [Hnd Hids] ->. simpl.
  destruct messages as [|m0 messages _] using rev_ind; [done|].
  rewrite last_snoc. simpl.
  assert (id m0 ≠ "") as Hm0.
  { rewrite Forall_forall in Hids. apply Hids.
    rewrite !elem_of_app. left. right. by left. }
  rewrite decide_False by done.
  rewrite <- app_assoc. simpl.
  rewrite older_than_split; [done|]. by rewrite <- app_assoc in Hnd.
Qed.

Lemma fetch_loop_serve k messages rest :
  well_formed history → history = messages ++ rest →
  length messages ≤ limit →
  (fetch_loop (serve history) limit k messages (id <$> last messages)).1
  = take limit history
  ∧ Forall (λ e, ∃ n b, e = GetMessages n b)
      (fetch_loop (serve history) limit k messages (id <$> last messages)).2.
Proof.
  intros Hwf.
  remember (limit - length messages) as m eqn:Hm.
  revert k messages rest Hm.
  induction (lt_wf m) as [m _ IH]. intros k messages rest -> Hh Hle.
  rewrite fetch_loop_unfold.
  destruct (decide (length messages < limit)) as [Hlt|Hge].
  2:{ simpl. split; [|done]. subst history.
      rewrite take_app_le, take_ge by lia. done. }
  cbv zeta.
  rewrite decide_True by done.
  rewrite (serve_next _ _ rest) by done.
  set (n := 100 `min` (limit - length messages)).
  assert (0 < n) as Hn by (unfold n; lia).
  destruct (decide (take n rest = [])) as [Hemp|Hnemp].
  - simpl. split; [|by repeat constructor; eauto].
    destruct rest; [|by destruct n; [lia|]].
    subst history. rewrite app_nil_r. by rewrite take_ge by lia.
  - assert (length (take n rest) ≤ n) as Hlen by (rewrite length_take; lia).
    assert (take n rest ≠ [] → 0 < length (take n rest)) as Hpos.
    { destruct (take n rest); [done|simpl; lia]. }
    specialize (Hpos Hnemp).
    assert (id <$> last (take n rest) = id <$> last (messages ++ take n rest))
      as ->.
    { rewrite last_app. destruct (last (take n rest)) eqn:Hlast; [done|].
      by apply last_None in Hlast. }
    destruct (IH (limit - length (messages ++ take n rest))
                ltac:(rewrite length_app; lia) (S k)
                (messages ++ take n rest) (drop n rest) eq_refl)
      as [Hres Hevs].
    { by rewrite <- app_assoc, take_drop. }
    { rewrite length_app. unfold n in *. lia. }
    split; [done|]. simpl. constructor; [eauto|done].
Qed.

Lemma fetch_messages_serve :
  well_formed history →
  (fetch_messages (serve history) limit).1 = take limit history
  ∧ Forall (λ e, ∃ n b, e = GetMessages n b)
      (fetch_messages (serve history) limit).2.
Proof.
  intros Hwf. unfold fetch_messages.
  destruct (fetch_loop_serve 0 [] history Hwf eq_refl ltac:(simpl; lia))
    as [Hres Hevs].
  simpl in *. split; [|done]. rewrite Hres. by rewrite take_take, Nat.min_id.
Qed.

End FixedHistory.

(** ** The inventory grows with the scan *)

Section InventoryGrowth.

Implicit Types acc : gmap string nat * gmap string N.

Lemma extends_refl acc : extends acc acc.
Proof. intros name. split; intros x Hx; exists x; split; (done || lia). Qed.

Lemma extends_trans acc1 acc2 acc3 :
  extends acc1 acc2 → extends acc2 acc3 → extends acc1 acc3.
Proof.
  intros H12 H23 name.
  destruct (H12 name) as [Hc12 Hz12], (H23 name) as [Hc23 Hz23]. split.
  - intros c (c' & Hc' & ?)%Hc12. apply Hc23 in Hc' as (c'' & ? & ?).
    exists c''. split; [done|lia].
  - intros z (z' & Hz' & ?)%Hz12. apply Hz23 in Hz' as (z'' & ? & ?).
    exists z''. split; [done|lia].
Qed.

Lemma count_attachment_extends acc att :
  extends acc (count_attachment acc att).
Proof.
  intros name. unfold count_attachment. simpl.
  destruct (decide (clean_filename_part (filename att) = name)) as [->|Hne].
  - split; intros x Hx; rewrite lookup_insert_eq, Hx; simpl;
      eexists; (split; [done|lia]).
  - split; intros x Hx; rewrite lookup_insert_ne by done;
      exists x; (split; [done|lia]).
Qed.

Lemma count_attachments_extends acc atts :
  extends acc (foldl count_attachment acc atts).
Proof.
  revert acc. induction atts as [|att atts IH]; intros acc; simpl.
  - apply extends_refl.
  - eapply extends_trans; [apply count_attachment_extends|apply IH].
Qed.

Lemma count_messages_extends acc messages :
  extends acc
    (foldl (λ acc msg, foldl count_attachment acc (attachments msg))
       acc messages).
Proof.
  revert acc. induction messages as [|msg messages IH]; intros acc; simpl.
  - apply extends_refl.
  - eapply extends_trans; [apply count_attachments_extends|apply IH].
Qed.

Lemma group_files_app messages more :
  extends (group_files messages) (group_files (messages ++ more)).
Proof.
  unfold group_files. rewrite foldl_app. apply count_messages_extends.
Qed.

End InventoryGrowth.

(** C8.  On a channel whose history stays as it is (ids distinct and not
    empty), a scan with limit [l1] returns the [l1] newest messages without
    a failed request, so its inventory is that of this prefix; and with
    [l1 ≤ l2] every file of the [l1] inventory is in the [l2] inventory with
    at least as many parts and at least as many bytes. *)
Theorem inventory_monotone (history : list Message) (l1 l2 : nat) :
  well_formed history → l1 ≤ l2 →
  (fetch_messages (serve history) l1).1 = take l1 history
  ∧ Forall (λ e, ∃ n b, e = GetMessages n b)
      (fetch_messages (serve history) l1).2
  ∧ build_inventory (serve history) l1 = group_files (take l1 history)
  ∧ extends (build_inventory (serve history) l1)
      (build_inventory (serve history) l2).
Proof.
  intros Hwf Hle.
  destruct (fetch_messages_serve history l1 Hwf) as [H1 Hevs].
  destruct (fetch_messages_serve history l2 Hwf) as [H2 _].
  unfold build_inventory. rewrite H1, H2. split_and!; [done..|].
  rewrite <- (take_drop l1 (take l2 history)).
  rewrite take_take, Nat.min_l by done.
  apply group_files_app.
Qed.

Lemma inventory_monotone_witness :
  let att f z := {| filename := f; size := z; url := "cdn/" +:+ f |} in
  let history :=
    [ {| id := "30"; attachments := [att "a.bin.part2" 3%N] |};
      {| id := "20"; attachments := [att "a.bin.part1" 8%N] |};
      {| id := "10"; attachments := [att "b.txt.part1" 5%N] |} ] in
  (build_inventory (serve history) 1).1 !! "a.bin" = Some 1
  ∧ (build_inventory (serve history) 2).1 !! "a.bin" = Some 2
  ∧ (build_inventory (serve history) 2).2 !! "a.bin" = Some 11%N
  ∧ extends (build_inventory (serve history) 1)
      (build_inventory (serve history) 2).
Proof.
  intros att history. split_and!; [by vm_compute..|].
  apply (inventory_monotone history 1 2); [|lia].
  split.
  - apply (bool_decide_unpack _). by vm_compute.
  - by repeat constructor.
Defined.

(** ** Download: order of the parts, content of the local file *)

Section Sorting.

Context {A : Type} (key : A → N).

Lemma insert_by_perm x l : insert_by key x l ≡ₚ x :: l.
Proof.
  induction l as [|y l IH]; simpl; [done|].
  case_match; [done|]. by rewrite IH, Permutation_swap.
Qed.

Lemma sort_by_perm l : sort_by key l ≡ₚ l.
Proof.
  induction l as [|x l IH]; simpl; [done|].
  by rewrite insert_by_perm, IH.
Qed.

Lemma insert_by_sorted x l :
  StronglySorted (λ a b, (key a ≤ key b)%N) l →
  StronglySorted (λ a b, (key a ≤ key b)%N) (insert_by key x l).
Proof.
  induction 1 as [|y l Hl IH Hy]; simpl.
  - by repeat constructor.
  - destruct (key x <=? key y)%N eqn:Hxy.
    + apply N.leb_le in Hxy. constructor; [by constructor|].
      constructor; [done|].
      eapply Forall_impl; [done|]. simpl. lia.
    + apply N.leb_gt in Hxy. constructor; [done|].
      rewrite insert_by_perm. constructor; [lia|done].
Qed.

Lemma sort_by_sorted l :
  StronglySorted (λ a b, (key a ≤ key b)%N) (sort_by key l).
Proof.
  induction l as [|x l IH]; simpl; [constructor|].
  by apply insert_by_sorted.
Qed.

(** Parts with the same key keep the order of the scan. *)
Lemma insert_by_stable k x l :
  filter (λ a, key a = k) (insert_by key x l)
  = filter (λ a, key a = k) (x :: l).
Proof.
  induction l as [|y l IH]; simpl; [done|].
  destruct (key x <=? key y)%N eqn:Hxy; [done|].
  apply N.leb_gt in Hxy.
  rewrite (filter_cons _ y), IH, !(filter_cons _ x), !(filter_cons _ y).
  repeat case_decide; (done || lia).
Qed.

Lemma sort_by_stable k l :
  filter (λ a, key a = k) (sort_by key l) = filter (λ a, key a = k) l.
Proof.
  induction l as [|x l IH]; simpl; [done|].
  by rewrite insert_by_stable, !filter_cons, IH.
Qed.

End Sorting.

Section DownloadLoop.

Context (get : nat → string → Fetched) (out_file : string).

Lemma contents_cons k p parts :
  contents get k (p :: parts)
  = content (get k p.2) :: contents get (S k) parts.
Proof.
  unfold contents. simpl. rewrite Nat.add_0_r. f_equal.
  apply imap_ext. intros i q _. simpl. by rewrite Nat.add_succ_r.
Qed.

(** The loop fetches the parts in the order given up to the first reply
    that is not 200, and appends what it received to the file. *)
Lemma download_loop_split k parts fs data :
  fs !! out_file = Some data →
  ∃ done tail,
    parts = done ++ tail
    ∧ (∀ i p, done !! i = Some p → fetch_status (get (k + i) p.2) = 200)
    ∧ (tail = [] ∨
       ∃ p tl, tail = p :: tl
               ∧ fetch_status (get (k + length done) p.2) ≠ 200)
    ∧ (download_loop get out_file k parts fs).1.1
      = <[out_file := data ++ concat (contents get k done)]> fs
    ∧ (download_loop get out_file k parts fs).1.2 = bool_decide (tail = [])
    ∧ fetched (download_loop get out_file k parts fs).2
      = done.*2 ++ (take 1 tail).*2
    ∧ opened (download_loop get out_file k parts fs).2 = [].
Proof.
  revert k fs data.
  induction parts as [|[fname u] parts IH]; intros k fs data Hdata.
  - exists [], []. simpl. rewrite app_nil_r.
    split_and!; try done; [by left|]. by rewrite insert_id.
  - simpl. destruct (decide (fetch_status (get k u) = 200)) as [Hok|Hbad].
    + destruct (IH (S k) (append_to out_file (content (get k u)) fs)
                  (data ++ content (get k u)))
        as (done & tail & -> & Hdone & Htail & Hfs & Hflag & Hget & Hopen).
      { unfold append_to. by rewrite Hdata, lookup_insert_eq. }
      exists ((fname, u) :: done), tail. split_and!.
      * done.
      * intros [|i] p; simpl.
        -- intros [= <-]. by rewrite Nat.add_0_r.
        -- rewrite Nat.add_succ_r. apply Hdone.
      * simpl. by rewrite Nat.add_succ_r.
      * rewrite contents_cons. simpl. rewrite Hfs.
        unfold append_to. by rewrite insert_insert_eq, app_assoc.
      * done.
      * simpl. unfold fetched in *. simpl. by rewrite Hget.
      * done.
    + exists [], ((fname, u) :: parts). simpl.
      rewrite app_nil_r, Nat.add_0_r.
      split_and!; try done; [right; eauto|]. by rewrite insert_id.
Qed.

(** Where the loop stops is settled by the replies. *)
Lemma split_unique k (done tail done' tail' : list (string * string)) :
  done ++ tail = done' ++ tail' →
  (∀ i p, done !! i = Some p → fetch_status (get (k + i) p.2) = 200) →
  (tail = [] ∨
   ∃ p tl, tail = p :: tl ∧ fetch_status (get (k + length done) p.2) ≠ 200) →
  (∀ i p, done' !! i = Some p → fetch_status (get (k + i) p.2) = 200) →
  (tail' = [] ∨
   ∃ p tl, tail' = p :: tl
           ∧ fetch_status (get (k + length done') p.2) ≠ 200) →
  done = done'.
Proof.
  revert k done'.
  induction done as [|p done IH]; intros k [|p' done'] Heq Hd Ht Hd' Ht'.
  - done.
  - simpl in Heq. destruct Ht as [->|(q & tl & -> & Hq)]; [done|].
    injection Heq as <- _. simpl in Hq. destruct Hq. by apply (Hd' 0).
  - simpl in Heq. destruct Ht' as [->|(q & tl & -> & Hq)]; [done|].
    injection Heq as -> _. simpl in Hq. destruct Hq. by apply (Hd 0).
  - simpl in Heq. injection Heq as <- Heq. f_equal.
    apply (IH (S k) done'); [done| | | |].
    + intros i q Hq. replace (S k + i) with (k + S i) by lia.
      by apply (Hd (S i)).
    + simpl in Ht. by replace (S k + length done) with (k + S (length done))
        by lia.
    + intros i q Hq. replace (S k + i) with (k + S i) by lia.
      by apply (Hd' (S i)).
    + simpl in Ht'.
      by replace (S k + length done') with (k + S (length done')) by lia.
Qed.

End DownloadLoop.

Section DownloadFile.

Context (get_page : nat → nat → option string → Page)
  (get_url : nat → string → Fetched).

Lemma fetch_loop_events limit k messages last_id :
  Forall scan_event (fetch_loop get_page limit k messages last_id).2.
Proof.
  remember (limit - length messages) as m eqn:Hm.
  revert k messages last_id Hm.
  induction (lt_wf m) as [m _ IH]. intros k messages last_id ->.
  rewrite fetch_loop_unfold.
  destruct (decide (length messages < limit)); [|done]. cbv zeta.
  destruct (decide (page_status _ = 200)); [|by repeat constructor].
  destruct (decide (batch _ = [])) as [|Hne]; [by repeat constructor|].
  simpl. constructor; [done|].
  eapply IH; [|done]. rewrite length_app.
  destruct (batch _); [done|simpl; lia].
Qed.

Lemma scan_fetches_nothing evs :
  Forall scan_event evs → fetched evs = [] ∧ opened evs = [].
Proof.
  induction 1 as [|e evs He _ [IHf IHo]]; [done|].
  by destruct e as [| | | | | | | |[]].
Qed.

Lemma fetched_app evs1 evs2 : fetched (evs1 ++ evs2) = fetched evs1 ++ fetched evs2.
Proof. apply omap_app. Qed.

Lemma opened_app evs1 evs2 : opened (evs1 ++ evs2) = opened evs1 ++ opened evs2.
Proof. apply omap_app. Qed.

(** A download that has parts to fetch opens [file_name] for writing,
    fetches the sorted parts up to the first failure, and leaves in the
    file what it received. *)
Lemma download_file_run file_name fs :
  let scan := fetch_messages get_page MAX_MESSAGES_TO_FETCH in
  let parts := parts_of file_name scan.1 in
  let sorted := sort_by (λ x, part_key x.1) parts in
  let out := download_file get_page get_url file_name fs in
  parts ≠ [] →
  ∃ done tail,
    sorted = done ++ tail
    ∧ (∀ i p, done !! i = Some p → fetch_status (get_url i p.2) = 200)
    ∧ (tail = [] ∨
       ∃ p tl, tail = p :: tl
               ∧ fetch_status (get_url (length done) p.2) ≠ 200)
    ∧ out.1 = <[file_name := concat (contents get_url 0 done)]> fs
    ∧ ∃ evs,
        out.2 = scan.2 ++ OpenWb file_name :: evs
        ∧ fetched scan.2 = [] ∧ opened scan.2 = []
        ∧ fetched evs = done.*2 ++ (take 1 tail).*2
        ∧ opened evs = []
        ∧ (tail ≠ [] → Print (Downloaded file_name) ∉ out.2).
Proof.
  intros scan parts sorted out Hparts.
  destruct (download_loop_split get_url file_name 0 sorted
              (<[file_name := []]> fs) [])
    as (done & tail & Hsplit & Hdone & Htail & Hfs & Hflag & Hget & Hopen).
  { apply lookup_insert_eq. }
  destruct (scan_fetches_nothing scan.2) as [Hsf So].
  { apply fetch_loop_events. }
  exists done, tail.
  assert (out = ((download_loop get_url file_name 0 sorted
                    (<[file_name := []]> fs)).1.1,
                 scan.2 ++ OpenWb file_name ::
                 (download_loop get_url file_name 0 sorted
                    (<[file_name := []]> fs)).2 ++
                 (if (download_loop get_url file_name 0 sorted
                        (<[file_name := []]> fs)).1.2
                  then [Print (Downloaded file_name)] else []))) as ->.
  { subst out sorted. unfold download_file. fold scan. fold parts.
    by destruct parts. }
  simpl. split_and!; [done..| |].
  - rewrite Hfs. by rewrite insert_insert_eq.
  - eexists. split_and!; [done..| | |].
    + rewrite fetched_app, Hget. case_match; by rewrite app_nil_r.
    + rewrite opened_app, Hopen. by case_match.
    + intros Hne. rewrite Hflag, bool_decide_eq_false_2, app_nil_r by done.
      rewrite elem_of_app, elem_of_cons.
      assert (∀ evs e, e ∈ evs → Forall scan_event evs → scan_event e) as Hin.
      { intros evs e He Hall. by eapply Forall_forall in Hall. }
      intros [Hs|[?|Hl]];
        [by apply (Hin _ _ Hs (fetch_loop_events _ _ _ _))|done|].
      clear -Hl. revert Hl.
      generalize 0 (<[file_name:=[]]> fs).
      induction sorted as [|[fname u] l IH]; intros k fs0; simpl.
      * by intros ?%elem_of_nil.
      * case_decide; simpl.
        -- rewrite !elem_of_cons. intros [?|[?|[?|?]]]; [done..|]. by eapply IH.
        -- rewrite !elem_of_cons. intros [?|[?|?%elem_of_nil]]; done.
Qed.

End DownloadFile.

(** C5.  When the scan finds parts of [file_name], [download_file] fetches
    them sorted by part number, ascending; a name without a readable number
    counts as 0 and so comes first, and parts with the same number keep the
    order of the scan.  The parts are fetched one after the other in that
    order and their bodies appended to the local file; the first reply that
    is not 200 ends the download without the closing line, and the file
    then holds the bodies of the parts fetched before it, and nothing
    else. *)
Theorem download_in_order (get_page : nat → nat → option string → Page)
    (get_url : nat → string → Fetched) (file_name : string)
    (fs : gmap string (list byte)) :
  let scan := fetch_messages get_page MAX_MESSAGES_TO_FETCH in
  let parts := parts_of file_name scan.1 in
  let key := λ x : string * string, part_key x.1 in
  let sorted := sort_by key parts in
  let out := download_file get_page get_url file_name fs in
  parts ≠ [] →
  sorted ≡ₚ parts
  ∧ StronglySorted (λ x y, (key x ≤ key y)%N) sorted
  ∧ (∀ k, filter (λ x, key x = k) sorted = filter (λ x, key x = k) parts)
  ∧ (∀ x, re_search_part x.1 = None → key x = 0%N)
  ∧ ∃ done tail,
      sorted = done ++ tail
      ∧ (∀ i p, done !! i = Some p → fetch_status (get_url i p.2) = 200)
      ∧ (tail = [] ∨
         ∃ p tl, tail = p :: tl
                 ∧ fetch_status (get_url (length done) p.2) ≠ 200)
      ∧ fetched out.2 = done.*2 ++ (take 1 tail).*2
      ∧ out.1 !! file_name = Some (concat (contents get_url 0 done))
      ∧ (tail ≠ [] → Print (Downloaded file_name) ∉ out.2).
Proof.
  intros scan parts key sorted out Hparts.
  split_and!.
  - apply sort_by_perm.
  - apply sort_by_sorted.
  - intros k. apply sort_by_stable.
  - intros x Hx. unfold key, part_key. by rewrite Hx.
  - destruct (download_file_run get_page get_url file_name fs Hparts)
      as (done & tail & Hsplit & Hdone & Htail & Hfs & evs & Hevs & Hsf & _
          & Hget & _ & Habort).
    exists done, tail. split_and!; [done..| | |done].
    + subst out. by rewrite Hevs, fetched_app, Hsf.
    + subst out. rewrite Hfs. apply lookup_insert_eq.
Qed.

Lemma download_in_order_witness :
  let att f := {| filename := f; size := 1; url := "cdn/" +:+ f |} in
  let history :=
    [ {| id := "3"; attachments := [att "a.part10"] |};
      {| id := "2"; attachments := [att "a.part2"; att "a"] |};
      {| id := "1"; attachments := [att "a.part1"] |} ] in
  let get_url := λ (k : nat) (u : string),
    {| fetch_status := if decide (k < 2) then 200 else 404;
       fetch_text := "gone";
       content := if decide (k = 0) then [Byte.x41] else [Byte.x42] |} in
  let out := download_file (serve history) get_url "a" ∅ in
  fetched out.2 = ["cdn/a"; "cdn/a.part1"; "cdn/a.part2"]
  ∧ out.1 !! "a" = Some [Byte.x41; Byte.x42]
  ∧ StronglySorted (λ x y : string * string, (part_key x.1 ≤ part_key y.1)%N)
      (sort_by (λ x, part_key x.1)
         (parts_of "a"
            (fetch_messages (serve history) MAX_MESSAGES_TO_FETCH).1)).
Proof.
  intros att history get_url out.
  split; [by vm_compute|]. split; [by vm_compute|].
  apply (download_in_order (serve history) get_url "a" ∅).
  by vm_compute.
Defined.

(** C10.  When the scan finds parts of [file_name], [download_file] opens
    exactly the path [file_name], for writing from empty, before any part
    is fetched, and opens nothing else.  Whatever the file held before is
    gone: afterwards it holds the bodies received and nothing more, and only
    [] when the very first fetch fails; other local files are as they
    were. *)
Theorem download_truncates (get_page : nat → nat → option string → Page)
    (get_url : nat → string → Fetched) (file_name : string)
    (fs : gmap string (list byte)) :
  let scan := fetch_messages get_page MAX_MESSAGES_TO_FETCH in
  let parts := parts_of file_name scan.1 in
  let sorted := sort_by (λ x, part_key x.1) parts in
  let out := download_file get_page get_url file_name fs in
  parts ≠ [] →
  (∃ evs, out.2 = scan.2 ++ OpenWb file_name :: evs ∧ fetched scan.2 = [])
  ∧ opened out.2 = [file_name]
  ∧ (∃ done tail, sorted = done ++ tail
       ∧ out.1 = <[file_name := concat (contents get_url 0 done)]> fs)
  ∧ (∀ old,
       (download_file get_page get_url file_name (<[file_name := old]> fs)).1
       = out.1)
  ∧ (∀ p tl, sorted = p :: tl → fetch_status (get_url 0 p.2) ≠ 200 →
       out.1 = <[file_name := []]> fs).
Proof.
  intros scan parts sorted out Hparts.
  destruct (download_file_run get_page get_url file_name fs Hparts)
    as (done & tail & Hsplit & Hdone & Htail & Hfs & evs & Hevs & Hsf & Hso
        & Hget & Hopen & _).
  subst scan parts sorted out.
  split_and!.
  - by exists evs.
  - rewrite Hevs, opened_app, Hso.
    change (opened (OpenWb file_name :: evs)) with (file_name :: opened evs).
    by rewrite Hopen.
  - by exists done, tail.
  - intros old.
    destruct (download_file_run get_page get_url file_name
                (<[file_name := old]> fs) Hparts)
      as (done' & tail' & Hsplit' & Hdone' & Htail' & Hfs' & _).
    assert (done' = done) as ->.
    { apply (split_unique get_url 0 done' tail' done tail); try done.
      by rewrite <- Hsplit, <- Hsplit'. }
    by rewrite Hfs', Hfs, insert_insert_eq.
  - intros p tl Hsorted Hbad.
    destruct done as [|p' done].
    + by rewrite Hfs.
    + rewrite Hsorted in Hsplit. injection Hsplit as -> _.
      destruct Hbad. by apply (Hdone 0).
Qed.

Lemma download_truncates_witness :
  let att f := {| filename := f; size := 1; url := "cdn/" +:+ f |} in
  let history :=
    [ {| id := "2"; attachments := [att "a.part2"] |};
      {| id := "1"; attachments := [att "a.part1"] |} ] in
  let get_url := λ (k : nat) (u : string),
    {| fetch_status := 503; fetch_text := "down"; content := [] |} in
  let fs : gmap string (list byte) :=
    {[ "a" := [Byte.x6f; Byte.x6c; Byte.x64] ]} in
  let out := download_file (serve history) get_url "a" fs in
  out.1 !! "a" = Some []
  ∧ opened out.2 = ["a"].
Proof.
  intros att history get_url fs out.
  split; [by vm_compute|].
  apply (download_truncates (serve history) get_url "a" fs).
  by vm_compute.
Defined.

(** ** The delete loop *)

Section DeleteLoop.

Context (delete : nat → string → Response).

Lemma gone_count_cons k i ids :
  gone_count delete k (i :: ids)
  = (if decide (status (delete k i) = 204) then 1 else 0)
    + gone_count delete (S k) ids.
Proof.
  unfold gone_count. simpl. rewrite Nat.add_0_r, filter_cons.
  assert (imap ((λ j i0, status (delete (k + j) i0)) ∘ S) ids
          = imap (λ j i0, status (delete (S k + j) i0)) ids) as ->.
  { apply imap_ext. intros j x _. simpl. by rewrite Nat.add_succ_r. }
  by case_decide.
Qed.

Lemma gone_count_app k ids1 ids2 :
  gone_count delete k (ids1 ++ ids2)
  = gone_count delete k ids1 + gone_count delete (k + length ids1) ids2.
Proof.
  revert k. induction ids1 as [|i ids1 IH]; intros k; simpl.
  - by rewrite Nat.add_0_r.
  - rewrite !gone_count_cons, IH, Nat.add_succ_r. simpl. lia.
Qed.

Lemma attempted_app evs1 evs2 :
  attempted (evs1 ++ evs2) = attempted evs1 ++ attempted evs2.
Proof. apply omap_app. Qed.

(** One message costs between one and five requests, all for its id, and
    is counted exactly when one of them is answered 204. *)
Lemma delete_one_attempts message_id k retry_count :
  ∃ n,
    attempted (delete_one delete message_id k retry_count).2
    = replicate n message_id
    ∧ (delete_one delete message_id k retry_count).1.2 = k + n
    ∧ n ≤ MAX_RETRIES - retry_count
    ∧ (retry_count < MAX_RETRIES → 1 ≤ n)
    ∧ gone_count delete k (replicate n message_id)
      = match (delete_one delete message_id k retry_count).1.1 with
        | Gone => 1
        | _ => 0
        end.
Proof.
  remember (MAX_RETRIES - retry_count) as m eqn:Hm.
  revert k retry_count Hm.
  induction m as [|m IH]; intros k retry_count Hm;
    rewrite delete_one_unfold.
  - rewrite decide_False by lia. exists 0. simpl.
    split_and!; (done || lia).
  - rewrite decide_True by lia. cbv zeta.
    destruct (decide (status (delete k message_id) = 204)) as [H204|H204].
    { exists 1. simpl. rewrite gone_count_cons, decide_True by done.
      split_and!; (done || lia). }
    destruct (decide (status (delete k message_id) = 429)) as [H429|H429].
    2:{ exists 1. simpl. rewrite gone_count_cons, decide_False by done.
        split_and!; (done || lia). }
    destruct (json (delete k message_id)) as [j|].
    2:{ exists 1. simpl. rewrite gone_count_cons, decide_False by done.
        split_and!; (done || lia). }
    destruct (IH (S k) (S retry_count) ltac:(lia))
      as (n & Hatt & Hk & Hn & _ & Hgone).
    exists (S n). simpl.
    rewrite gone_count_cons, decide_False by done.
    split_and!; try (done || lia).
    change (attempted (Delete message_id ::
                       Sleep (delete_retry_after j) :: ?evs))
      with (message_id :: attempted evs).
    by rewrite Hatt.
Qed.

Lemma delete_one_completes message_id k retry_count :
  (∀ k i, status (delete k i) = 429 → json (delete k i) ≠ None) →
  (delete_one delete message_id k retry_count).1.1 ≠ Raised.
Proof.
  intros Hjson.
  remember (MAX_RETRIES - retry_count) as m eqn:Hm.
  revert k retry_count Hm.
  induction m as [|m IH]; intros k retry_count Hm;
    rewrite delete_one_unfold.
  - by rewrite decide_False by lia.
  - rewrite decide_True by lia. cbv zeta.
    repeat case_decide; try done.
    destruct (json (delete k message_id)) eqn:Hj.
    + simpl. apply IH. lia.
    + by edestruct Hjson.
Qed.

Lemma delete_loop_cons k message_id rest deleted_count :
  let one := delete_one delete message_id k 0 in
  one.1.1 ≠ Raised →
  delete_loop delete k (message_id :: rest) deleted_count
  = and_then one.2
      (delete_loop delete one.1.2 rest
         (match one.1.1 with Gone => S deleted_count | _ => deleted_count end)).
Proof. intros one Hone. simpl. fold one. by destruct (one.1.1). Qed.

Lemma delete_loop_raised k message_id rest deleted_count :
  (delete_one delete message_id k 0).1.1 = Raised →
  (delete_loop delete k (message_id :: rest) deleted_count).1 = None.
Proof. intros Hone. simpl. by rewrite Hone. Qed.

(** A loop that runs to its end has sent requests for every id, in order,
    and has counted the 204 replies. *)
Lemma delete_loop_count k to_delete deleted_count n :
  (delete_loop delete k to_delete deleted_count).1 = Some n →
  n = deleted_count
      + gone_count delete k
          (attempted (delete_loop delete k to_delete deleted_count).2)
  ∧ ∃ ns, length ns = length to_delete
          ∧ Forall (λ a, 1 ≤ a ≤ MAX_RETRIES) ns
          ∧ attempted (delete_loop delete k to_delete deleted_count).2
            = concat (zip_with replicate ns to_delete).
Proof.
  revert k deleted_count.
  induction to_delete as [|message_id rest IH]; intros k deleted_count.
  - simpl. intros [= <-]. split; [done|]. by exists [].
  - assert ((delete_one delete message_id k 0).1.1 = Raised
            ∨ (delete_one delete message_id k 0).1.1 ≠ Raised) as [Hr|Hr]
      by (destruct ((delete_one delete message_id k 0).1.1); auto).
    { by rewrite delete_loop_raised. }
    rewrite delete_loop_cons by done. cbv zeta. unfold and_then. simpl.
    destruct (delete_one_attempts message_id k 0)
      as (a & Hatt & Hk & Ha & Ha1 & Hgone).
    intros (-> & ns & Hlen & Hns & Hrest)%IH.
    rewrite attempted_app, gone_count_app, Hatt, length_replicate, Hgone.
    rewrite <- Hk. split.
    + destruct ((delete_one delete message_id k 0).1.1); lia.
    + exists (a :: ns). simpl. rewrite Hlen, Hrest.
      split_and!; [done| |done].
      constructor; [|done]. unfold MAX_RETRIES in *. lia.
Qed.

Lemma delete_loop_completes k to_delete deleted_count :
  (∀ k i, status (delete k i) = 429 → json (delete k i) ≠ None) →
  is_Some (delete_loop delete k to_delete deleted_count).1.
Proof.
  intros Hjson. revert k deleted_count.
  induction to_delete as [|message_id rest IH]; intros k deleted_count.
  - by eexists.
  - rewrite delete_loop_cons by (by apply delete_one_completes).
    apply IH.
Qed.

End DeleteLoop.

(** Where the loop does go on.  When the scan finds messages to delete, a
    message whose delete ends in failure (a status other than 204 and 429,
    or five 429 replies) is passed over and the loop goes on with the next
    id, the count unchanged.  A run that reports a count has sent between
    one and five requests for every id of [to_delete], in order, and the
    count is the number of those requests answered 204; the line printed
    last carries it.  A run reports a count whenever every 429 reply has a
    JSON object for its body. *)
Theorem delete_continues (get_page : nat → nat → option string → Page)
    (delete : nat → string → Response) (file_name : string) :
  let scan := fetch_messages get_page MAX_MESSAGES_TO_FETCH in
  let to_delete := ids_of file_name scan.1 in
  let out := delete_file get_page delete file_name in
  to_delete ≠ [] →
  (∀ k message_id rest deleted_count,
     let one := delete_one delete message_id k 0 in
     (one.1.1 = Exhausted ∨ ∃ st body, one.1.1 = Refused st body) →
     delete_loop delete k (message_id :: rest) deleted_count
     = and_then one.2 (delete_loop delete one.1.2 rest deleted_count))
  ∧ (∀ n, out.1 = Some n →
       ∃ evs ns,
         out.2 = scan.2 ++ evs ++ [Print (Deleted n file_name)]
         ∧ length ns = length to_delete
         ∧ Forall (λ a, 1 ≤ a ≤ MAX_RETRIES) ns
         ∧ attempted evs = concat (zip_with replicate ns to_delete)
         ∧ n = gone_count delete 0 (attempted evs))
  ∧ ((∀ k i, status (delete k i) = 429 → json (delete k i) ≠ None) →
     is_Some out.1).
Proof.
  intros scan to_delete out Hne.
  assert (out = match (delete_loop delete 0 to_delete 0).1 with
                | Some n =>
                    (Some n, scan.2 ++ (delete_loop delete 0 to_delete 0).2
                             ++ [Print (Deleted n file_name)])
                | None => (None, scan.2 ++ (delete_loop delete 0 to_delete 0).2)
                end) as ->.
  { subst out. unfold delete_file. fold scan. fold to_delete.
    by destruct to_delete. }
  split_and!.
  - intros k message_id rest deleted_count one Hone.
    rewrite delete_loop_cons; fold one.
    + by destruct Hone as [-> | (st & body & ->)].
    + by destruct Hone as [-> | (st & body & ->)].
  - intros n Hn.
    destruct (delete_loop delete 0 to_delete 0).1 as [n'|] eqn:Hrun;
      [|done].
    injection Hn as ->.
    apply delete_loop_count in Hrun as (Hcount & ns & Hlen & Hns & Hatt).
    exists (delete_loop delete 0 to_delete 0).2, ns.
    split_and!; done.
  - intros Hjson.
    destruct (delete_loop_completes delete 0 to_delete 0 Hjson) as [n Hn].
    rewrite Hn. by eexists.
Qed.

Lemma delete_continues_witness :
  let att f := {| filename := f; size := 1; url := "cdn/" +:+ f |} in
  let history :=
    [ {| id := "30"; attachments := [att "a.part3"] |};
      {| id := "20"; attachments := [att "a.part2"] |};
      {| id := "10"; attachments := [att "a.part1"] |} ] in
  let delete := λ (k : nat) (i : string),
    {| status := if decide (i = "20") then 403 else 204;
       text := "forbidden"; json := None |} in
  let out := delete_file (serve history) delete "a" in
  out.1 = Some 2
  ∧ attempted out.2 = ["30"; "20"; "10"]
  ∧ is_Some out.1.
Proof.
  intros att history delete out.
  split; [by vm_compute|]. split; [by vm_compute|].
  apply (delete_continues (serve history) delete "a").
  - by vm_compute.
  - intros k i. unfold delete. simpl. by case_decide.
Defined.

(** C6.  Three messages hold the parts of a file.  The DELETE of the first
    is refused with 403 and the loop goes on to the second, as the claim
    has it.  The DELETE of the second is answered 429 with a body that is
    no JSON object: [resp.json()] (line 199) raises, nothing in
    [delete_file] catches it, the third id is never asked for although its
    DELETE would be answered 204, and no count is reported. *)
Theorem delete_stops_at_malformed_429 :
  let att f := {| filename := f; size := 1; url := "cdn/" +:+ f |} in
  let history :=
    [ {| id := "30"; attachments := [att "a.part3"] |};
      {| id := "20"; attachments := [att "a.part2"] |};
      {| id := "10"; attachments := [att "a.part1"] |} ] in
  let delete := λ (k : nat) (i : string),
    if decide (i = "30")
    then {| status := 403; text := "forbidden"; json := None |}
    else if decide (i = "20")
         then {| status := 429; text := "<html>"; json := None |}
         else {| status := 204; text := EmptyString; json := None |} in
  let out := delete_file (serve history) delete "a" in
  ids_of "a" (fetch_messages (serve history) MAX_MESSAGES_TO_FETCH).1
  = ["30"; "20"; "10"]
  ∧ status (delete 2 "10") = 204
  ∧ attempted out.2 = ["30"; "20"]
  ∧ last out.2 = Some (Delete "20")
  ∧ out.1 = None.
Proof. intros att history delete out. by vm_compute. Qed.

(** ** The concurrent upload *)

(** Name the totals over the task list, so that unfolding the weights of
    single tasks leaves them alone. *)
Ltac hide_totals :=
  repeat match goal with
  | |- context [sum_list_with ?f ?l] =>
      let total := fresh "total" in
      set (total := sum_list_with f l) in *; clearbody total
  | H : context [sum_list_with ?f ?l] |- _ =>
      let total := fresh "total" in
      set (total := sum_list_with f l) in *; clearbody total
  end.

Section CoordinatorFacts.

Implicit Types (st : State) (t : Task).

Lemma sum_list_with_insert {A} (f : A → nat) (l : list A) i x y :
  l !! i = Some x →
  sum_list_with f (<[i := y]> l) + f x = sum_list_with f l + f y.
Proof.
  intros Hi.
  rewrite insert_take_drop by (by eapply lookup_lt_Some).
  rewrite <- (take_drop_middle l i x Hi) at 3.
  rewrite !sum_list_with_app. simpl. lia.
Qed.

Lemma step_tasks st st' :
  step st st' →
  tasks st' = tasks st
  ∨ ∃ i t p, tasks st !! i = Some t ∧ tasks st' = <[i := at_pc t p]> (tasks st).
Proof. destruct 1; eauto 10. Qed.

Lemma step_chunks st st' :
  step st st' →
  (λ t, (part t, chunk t)) <$> tasks st'
  = (λ t, (part t, chunk t)) <$> tasks st.
Proof.
  intros [->|(i & t & p & Hi & ->)]%step_tasks; [done|].
  rewrite list_fmap_insert. simpl. apply list_insert_id.
  by rewrite list_lookup_fmap, Hi.
Qed.

(** A move of one task leaves every other task where it was. *)
Lemma step_frame st st' :
  step st st' → ∃ i, ∀ j, j ≠ i → tasks st' !! j = tasks st !! j.
Proof.
  intros [->|(i & t & p & Hi & ->)]%step_tasks; [by exists 0|].
  exists i. intros j Hj. by rewrite list_lookup_insert_ne.
Qed.

Lemma initial_invariant chunk_size content :
  invariant chunk_size content (initial chunk_size content).
Proof.
  split; simpl.
  - unfold holders. simpl.
    induction (read_chunks chunk_size 1 content) as [|c l IH]; [done|].
    simpl. exact IH.
  - apply Forall_fmap, Forall_forall. by intros.
  - done.
  - rewrite <- list_fmap_compose. etrans; [|apply list_fmap_id].
    apply list_fmap_ext. by intros ? [].
Qed.

Lemma step_invariant chunk_size content st st' :
  invariant chunk_size content st → step st st' →
  invariant chunk_size content st'.
Proof.
  intros [Hperm Hceil Hret Hchunks] Hstep.
  split; [| | |by rewrite (step_chunks st st')].
  - unfold holders in *.
    destruct Hstep as [st i t n Hi Hpc Hn Hp|st i t n Hi Hpc Hn
                      |st i t n r Hi Hpc|st i t n d Hi Hpc|st Hall Hr]; simpl;
      [..|done];
      pose proof (sum_list_with_insert (weight holds_permit) (tasks st) i t)
        as Hsum.
    + specialize (Hsum (at_pc t (InFlight n)) Hi). hide_totals.
      unfold weight, holds_permit in Hsum. rewrite Hpc in Hsum. simpl in *. lia.
    + specialize (Hsum (at_pc t (Finished TransferFailed)) Hi). hide_totals.
      unfold weight, holds_permit in Hsum. rewrite Hpc in Hsum. simpl in *. lia.
    + specialize (Hsum (at_pc t (on_reply n r)) Hi). hide_totals.
      unfold weight, holds_permit, on_reply, released in *.
      rewrite Hpc in Hsum. simpl in *.
      repeat case_decide; simpl in *; lia.
    + specialize (Hsum (at_pc t (Waiting (S n))) Hi). hide_totals.
      unfold weight, holds_permit in Hsum. rewrite Hpc in Hsum. simpl in *. lia.
  - destruct Hstep as [st i t n Hi Hpc Hn Hp|st i t n Hi Hpc Hn
                      |st i t n r Hi Hpc|st i t n d Hi Hpc|st Hall Hr]; simpl;
      [..|done]; apply Forall_insert; try done.
    unfold below_ceiling, on_reply. simpl.
    assert (below_ceiling t) as Ht.
    { rewrite Forall_forall in Hceil. apply Hceil.
      by eapply list_elem_of_lookup_2. }
    unfold below_ceiling in Ht. rewrite Hpc in Ht.
    by repeat case_decide.
  - destruct Hstep as [st i t n Hi Hpc Hn Hp|st i t n Hi Hpc Hn
                      |st i t n r Hi Hpc|st i t n d Hi Hpc|st Hall Hr]; simpl;
      [..|done]; intros Hr; specialize (Hret Hr);
      rewrite Forall_forall in Hret;
      assert (terminal t = true) as Ht
        by (apply Hret; by eapply list_elem_of_lookup_2);
      unfold terminal in Ht; by rewrite Hpc in Ht.
Qed.

Lemma reachable_invariant chunk_size content st :
  reachable chunk_size content st → invariant chunk_size content st.
Proof.
  unfold reachable. revert st.
  apply rtc_ind_r; [apply initial_invariant|].
  intros st st' _ Hstep IH. by eapply step_invariant.
Qed.

Lemma in_flight_holders st : in_flight st ≤ holders st.
Proof.
  unfold in_flight, holders.
  induction (tasks st) as [|t l IH]; simpl; [done|].
  assert (weight in_remote_call t ≤ weight holds_permit t); [|lia].
  unfold weight, in_remote_call, holds_permit. destruct (pc t); simpl; lia.
Qed.

(** Every move uses up fuel, so no run goes on for ever. *)
Lemma step_fuel st st' :
  Forall below_ceiling (tasks st) → step st st' → fuel st' < fuel st.
Proof.
  intros Hceil Hstep. unfold fuel.
  destruct Hstep as [st i t n Hi Hpc Hn Hp|st i t n Hi Hpc Hn
                    |st i t n r Hi Hpc|st i t n d Hi Hpc|st Hall Hr]; simpl;
    [..|rewrite Hr; lia];
    pose proof (sum_list_with_insert task_fuel (tasks st) i t) as Hsum;
    assert (below_ceiling t) as Ht
      by (rewrite Forall_forall in Hceil; apply Hceil;
          by eapply list_elem_of_lookup_2);
    unfold below_ceiling in Ht; rewrite Hpc in Ht.
  - specialize (Hsum (at_pc t (InFlight n)) Hi). hide_totals.
    unfold task_fuel in Hsum. rewrite Hpc in Hsum. simpl in *.
    unfold MAX_RETRIES in *. lia.
  - specialize (Hsum (at_pc t (Finished TransferFailed)) Hi). hide_totals.
    unfold task_fuel in Hsum. rewrite Hpc in Hsum. simpl in *.
    unfold MAX_RETRIES in *. lia.
  - specialize (Hsum (at_pc t (on_reply n r)) Hi). hide_totals.
    unfold task_fuel, on_reply in Hsum. rewrite Hpc in Hsum. simpl in *.
    unfold MAX_RETRIES in *. repeat case_decide; simpl in *; lia.
  - specialize (Hsum (at_pc t (Waiting (S n))) Hi). hide_totals.
    unfold task_fuel in Hsum. rewrite Hpc in Hsum. simpl in *.
    unfold MAX_RETRIES in *. lia.
Qed.

(** The moves of a task are the branches of [upload_chunk]: giving up at
    the ceiling, ending on a reply, or going round after a 429. *)
Lemma task_moves_follow_upload_chunk post filename chunk part n :
  (upload_chunk_loop post filename chunk part n).1 =
    if decide (n < MAX_RETRIES) then
      match on_reply n (post n) with
      | Finished o => o
      | _ => (upload_chunk_loop post filename chunk part (S n)).1
      end
    else TransferFailed.
Proof.
  rewrite upload_chunk_loop_unfold. unfold on_reply.
  by repeat case_decide.
Qed.

Lemma no_holders st :
  ¬ Exists (λ t, holds_permit t = true) (tasks st) → holders st = 0.
Proof.
  unfold holders. induction (tasks st) as [|t l IH]; [done|].
  intros Hno. simpl. rewrite IH by (contradict Hno; by right).
  unfold weight. destruct (holds_permit t) eqn:Ht; [|done].
  destruct Hno. by left.
Qed.

(** Until the gather has returned, something can always move. *)
Lemma step_progress chunk_size content st :
  invariant chunk_size content st → returned st = false → ∃ st', step st st'.
Proof.
  intros [Hperm _ _ _] Hret.
  destruct (decide (Forall (λ t, terminal t = true) (tasks st)))
    as [Hall|Hsome].
  { eexists. by apply step_join. }
  destruct (decide (Exists (λ t, holds_permit t = true) (tasks st)))
    as [Hheld|Hfree].
  - apply Exists_exists in Hheld as (t & [i Hi]%list_elem_of_lookup & Ht).
    unfold holds_permit in Ht. destruct (pc t) as [| n | n d |] eqn:Hpc;
      try done.
    + eexists.
      by apply (step_reply st i t n
                  {| status := 200; text := ""; json := None |}).
    + eexists. by apply (step_wake st i t n d).
  - apply not_Forall_Exists in Hsome; [|apply _].
    apply Exists_exists in Hsome as (t & Hin & Ht).
    pose proof Hin as [i Hi]%list_elem_of_lookup.
    rewrite no_holders in Hperm by done.
    assert (holds_permit t = false) as Hnot.
    { destruct (holds_permit t) eqn:Hh; [|done].
      destruct Hfree. apply Exists_exists. by exists t. }
    unfold holds_permit in Hnot. simpl in Ht. unfold terminal in Ht.
    destruct (pc t) as [n | n | n d | o] eqn:Hpc; try done.
    destruct (decide (n < MAX_RETRIES)).
    + eexists. apply (step_acquire st i t n); try done.
      unfold MAX_CONCURRENT_UPLOADS in Hperm. lia.
    + eexists. by apply (step_give_up st i t n).
Qed.

(** From wherever the upload stands it runs on to the return of the
    gather. *)
Lemma upload_returns chunk_size content st :
  invariant chunk_size content st →
  ∃ st', rtc step st st' ∧ returned st' = true.
Proof.
  remember (fuel st) as m eqn:Hm. revert st Hm.
  induction (lt_wf m) as [m _ IH]. intros st -> Hinv.
  destruct (returned st) eqn:Hret; [by exists st|].
  destruct (step_progress _ _ st Hinv Hret) as [st1 Hstep].
  destruct (IH (fuel st1)) with (st := st1) as (st' & Hrun & Hdone).
  - apply step_fuel; [apply Hinv|done].
  - done.
  - by eapply step_invariant.
  - exists st'. split; [|done]. by eapply rtc_l.
Qed.

End CoordinatorFacts.

(** C9.  In every state the concurrent upload of a file can reach, at most
    3 tasks have a POST awaiting its reply (at most 3 are inside the
    semaphore at all), and the tasks are the chunks of the file, one each.
    The gather has returned only if every task has reached its end
    ([Uploaded], [RemoteError] or [TransferFailed]); until it has, some
    move is possible, every move uses up fuel, and from any state the
    upload runs on to its return.  A move of one task, its failure
    included, leaves every other task where it was. *)
Theorem bounded_concurrency (chunk_size : nat) (content : list byte)
    (st : State) :
  reachable chunk_size content st →
  in_flight st ≤ MAX_CONCURRENT_UPLOADS
  ∧ holders st ≤ MAX_CONCURRENT_UPLOADS
  ∧ (λ t, (part t, chunk t)) <$> tasks st = read_chunks chunk_size 1 content
  ∧ (returned st = true → Forall (λ t, terminal t = true) (tasks st))
  ∧ (returned st = false → ∃ st', step st st')
  ∧ (∃ st', rtc step st st' ∧ returned st' = true
            ∧ Forall (λ t, terminal t = true) (tasks st'))
  ∧ (∀ st', step st st' →
       fuel st' < fuel st
       ∧ ∃ i, ∀ j, j ≠ i → tasks st' !! j = tasks st !! j).
Proof.
  intros Hreach.
  pose proof (reachable_invariant _ _ _ Hreach) as Hinv.
  pose proof (in_flight_holders st).
  destruct Hinv as [Hperm Hceil Hret Hchunks].
  split_and!; [lia|lia|done|done| | |].
  - by apply (step_progress chunk_size content).
  - destruct (upload_returns chunk_size content st) as (st' & Hrun & Hdone);
      [by split|].
    exists st'. split_and!; [done..|].
    assert (reachable chunk_size content st') as Hreach'.
    { unfold reachable in *. by etrans. }
    apply reachable_invariant in Hreach'. by apply Hreach'.
  - intros st' Hstep. split; [by apply step_fuel|by apply step_frame].
Qed.

Lemma bounded_concurrency_witness :
  let content := [Byte.x01; Byte.x02; Byte.x03] in
  let st :=
    {| tasks := [ {| part := 1; chunk := [Byte.x01; Byte.x02];
                     pc := InFlight 0 |};
                  {| part := 2; chunk := [Byte.x03]; pc := Waiting 0 |} ];
       permits := 2;
       returned := false |} in
  reachable 2 content st ∧ in_flight st ≤ MAX_CONCURRENT_UPLOADS.
Proof.
  intros content st.
  assert (reachable 2 content st) as Hreach.
  { unfold reachable. eapply rtc_l; [|apply rtc_refl].
    apply (step_acquire (initial 2 content) 0
             {| part := 1; chunk := [Byte.x01; Byte.x02]; pc := Waiting 0 |} 0);
      [reflexivity | reflexivity | unfold MAX_RETRIES; lia
      | simpl; unfold MAX_CONCURRENT_UPLOADS; lia]. }
  split; [exact Hreach|].
  apply (bounded_concurrency 2 content st Hreach).
Defined.

(** * More of the code *)

(** ** The serial upload stops at the first failure *)

Section SerialUpload.

Context (chunk_size : nat) (chunk_size_pos : 0 < chunk_size)
  (name : string) (post : nat → string → list byte → Response).

Lemma upload_sync_loop_prefix part rest :
  1 ≤ part →
  ∃ done tail,
    (λ pc, (part_name name pc.1, pc.2)) <$> read_chunks chunk_size part rest
    = done ++ tail
    ∧ (∀ i p, done !! i = Some p →
         status (post (part - 1 + i) p.1 p.2) = 200)
    ∧ (tail = []
       ∧ posted (upload_sync_loop chunk_size name post part rest) = done
       ∨ ∃ p tl,
           tail = p :: tl
           ∧ status (post (part - 1 + length done) p.1 p.2) ≠ 200
           ∧ posted (upload_sync_loop chunk_size name post part rest)
             = done ++ [p]
           ∧ last (upload_sync_loop chunk_size name post part rest)
             = Some (Print (PartError (part + length done)
                       (status (post (part - 1 + length done) p.1 p.2))
                       (text (post (part - 1 + length done) p.1 p.2))))).
Proof.
  revert part.
  induction rest as [|rest Hne IH] using (read_ind chunk_size chunk_size_pos);
    intros part Hpart.
  - exists [], [].
    rewrite upload_sync_loop_nil, read_chunks_nil by done.
    split_and!; [done|by intros|by left].
  - rewrite upload_sync_loop_cons, read_chunks_cons by done. cbv zeta.
    set (fn := part_name name part). set (c := take chunk_size rest).
    destruct (decide (status (post (part - 1) fn c) = 200)) as [Hok|Hbad].
    + destruct (IH (S part) ltac:(lia)) as (done & tail & Hsplit & Hdone & Hend).
      exists ((fn, c) :: done), tail. split_and!.
      * by rewrite fmap_cons, Hsplit.
      * intros [|i] p; simpl.
        -- intros [= <-]. by rewrite Nat.add_0_r.
        -- intros Hp. replace (part - 1 + S i) with (S part - 1 + i) by lia.
           by apply Hdone.
      * simpl length.
        replace (part - 1 + S (length done))
          with (S part - 1 + length done) by lia.
        replace (part + S (length done)) with (S part + length done) by lia.
        destruct Hend as [[-> Hposted]|(p & tl & -> & Hp & Hposted & Hlast)].
        -- left. split; [done|].
           change (posted (Post fn c :: Progress :: ?evs))
             with ((fn, c) :: posted evs).
           by rewrite Hposted.
        -- right. exists p, tl. split_and!; [done..| |].
           ++ change (posted (Post fn c :: Progress :: ?evs))
                with ((fn, c) :: posted evs).
              by rewrite Hposted.
           ++ by rewrite !last_cons, Hlast.
    + exists [], ((fn, c) :: ((λ pc, (part_name name pc.1, pc.2)) <$>
                    read_chunks chunk_size (S part) (drop chunk_size rest))).
      split_and!; [done|by intros|]. right.
      eexists _, _. simpl. rewrite !Nat.add_0_r.
      by split_and!.
Qed.

End SerialUpload.

(** X1.  [upload_sync] posts the parts of the file in order, under their
    part names, and only as long as every reply is 200. Either every part is
    posted; or the first reply that is not 200 belongs to the last part
    posted, no later part is sent, and the line that reports this part, its
    status and the body of the reply is the last thing the upload does. *)
Theorem upload_sync_stops_at_first_failure (chunk_size : nat) (name : string)
    (content : list byte) (post : nat → string → list byte → Response) :
  0 < chunk_size →
  let named := (λ pc, (part_name name pc.1, pc.2)) <$>
                 read_chunks chunk_size 1 content in
  let evs := upload_sync chunk_size name (Some content) post in
  ∃ done tail,
    named = done ++ tail
    ∧ (∀ i p, done !! i = Some p → status (post i p.1 p.2) = 200)
    ∧ (tail = [] ∧ posted evs = named
       ∨ ∃ p tl,
           tail = p :: tl
           ∧ status (post (length done) p.1 p.2) ≠ 200
           ∧ posted evs = done ++ [p]
           ∧ last evs
             = Some (Print (PartError (S (length done))
                       (status (post (length done) p.1 p.2))
                       (text (post (length done) p.1 p.2))))).
Proof.
  intros Hpos named evs.
  destruct (upload_sync_loop_prefix chunk_size Hpos name post 1 content
              ltac:(lia))
    as (done & tail & Hsplit & Hdone & Hend).
  exists done, tail. simpl in *. split_and!; [done..|].
  destruct Hend as [[-> Hposted]|(p & tl & -> & Hp & Hposted & Hlast)].
  - left. split; [done|]. subst named evs. simpl.
    by rewrite Hsplit, app_nil_r.
  - right. by exists p, tl.
Qed.

Lemma upload_sync_stops_at_first_failure_witness :
  let post := λ (k : nat) (_ : string) (_ : list byte),
    {| status := if decide (k = 1) then 500 else 200;
       text := "oops"; json := None |} in
  let evs := upload_sync 1 "f" (Some [Byte.x01; Byte.x02; Byte.x03]) post in
  posted evs = [("f.part1", [Byte.x01]); ("f.part2", [Byte.x02])]
  ∧ ∃ done tail,
      (λ pc, (part_name "f" pc.1, pc.2)) <$>
        read_chunks 1 1 [Byte.x01; Byte.x02; Byte.x03] = done ++ tail
      ∧ (∀ i p, done !! i = Some p → status (post i p.1 p.2) = 200).
Proof.
  intros post evs. split; [reflexivity|].
  destruct (upload_sync_stops_at_first_failure 1 "f"
              [Byte.x01; Byte.x02; Byte.x03] post ltac:(lia))
    as (done & tail & Hsplit & Hdone & _).
  by exists done, tail.
Defined.

(** ** The attempts of one part upload *)

Section ChunkAttempts.

Context (post : nat → Response) (filename : string) (chunk : list byte)
  (part : nat).

Lemma upload_chunk_loop_attempts retry_count :
  retry_count < MAX_RETRIES →
  ∃ n,
    1 ≤ n ∧ retry_count + n ≤ MAX_RETRIES
    ∧ posted (upload_chunk_loop post filename chunk part retry_count).2
      = replicate n (filename, chunk)
    ∧ (∀ i, retry_count ≤ i < retry_count + n - 1 → status (post i) = 429)
    ∧ match (upload_chunk_loop post filename chunk part retry_count).1 with
      | Uploaded => status (post (retry_count + n - 1)) = 200
      | RemoteError st body =>
          st = status (post (retry_count + n - 1))
          ∧ body = text (post (retry_count + n - 1))
          ∧ st ≠ 200 ∧ st ≠ 429
      | TransferFailed =>
          retry_count + n = MAX_RETRIES
          ∧ status (post (retry_count + n - 1)) = 429
      end.
Proof.
  remember (MAX_RETRIES - retry_count) as m eqn:Hm.
  revert retry_count Hm.
  induction m as [|m IH]; intros retry_count Hm Hlt; [lia|].
  rewrite upload_chunk_loop_unfold, decide_True by done. cbv zeta.
  destruct (decide (status (post retry_count) = 200)) as [H200|H200].
  { exists 1. simpl. rewrite Nat.add_sub.
    split_and!; first [done | lia | intros; lia]. }
  destruct (decide (status (post retry_count) = 429)) as [H429|H429].
  2:{ exists 1. simpl. rewrite Nat.add_sub.
      split_and!; first [done | lia | intros; lia]. }
  destruct (decide (S retry_count < MAX_RETRIES)) as [Hmore|Hlast].
  - destruct (IH (S retry_count) ltac:(lia) Hmore)
      as (n & Hn1 & Hn & Hposted & Hbefore & Hend).
    exists (S n).
    replace (retry_count + S n - 1) with (S retry_count + n - 1) by lia.
    split_and!; [lia|lia| | |].
    3:{ unfold and_then. simpl fst.
        destruct (upload_chunk_loop post filename chunk part (S retry_count)).1;
          [done..|].
        destruct Hend. split; [lia|done]. }
    + unfold and_then, posted in *. cbn [snd].
      by rewrite omap_app, Hposted.
    + intros i Hi. destruct (decide (i = retry_count)) as [->|]; [done|].
      apply Hbefore. lia.
  - exists 1. rewrite Nat.add_sub.
    rewrite (upload_chunk_loop_unfold _ _ _ _ (S retry_count)).
    rewrite decide_False by done. simpl.
    split_and!; first [done | lia | intros; lia].
Qed.

End ChunkAttempts.

(** X2.  Whatever the remote replies, [upload_chunk] posts the same part
    between one and five times and nothing else. Every reply but the last is
    a 429. The part counts as uploaded exactly when the last reply is 200;
    it is given up as rate limited exactly when five replies were 429; any
    other last reply ends it with that status and body. *)
Theorem upload_chunk_attempts (post : nat → Response) (name : string)
    (chunk : list byte) (part : nat) :
  ∃ n,
    1 ≤ n ≤ MAX_RETRIES
    ∧ posted (upload_chunk post name chunk part).2
      = replicate n (part_name name part, chunk)
    ∧ (∀ i, i < n - 1 → status (post i) = 429)
    ∧ match (upload_chunk post name chunk part).1 with
      | Uploaded => status (post (n - 1)) = 200
      | RemoteError st body =>
          st = status (post (n - 1)) ∧ body = text (post (n - 1))
          ∧ st ≠ 200 ∧ st ≠ 429
      | TransferFailed => n = MAX_RETRIES ∧ status (post (n - 1)) = 429
      end.
Proof.
  destruct (upload_chunk_loop_attempts post (part_name name part) chunk part 0)
    as (n & Hn1 & Hn & Hposted & Hbefore & Hend).
  { unfold MAX_RETRIES. lia. }
  exists n. simpl in *. split_and!; [lia|lia|done| |done].
  intros i Hi. apply Hbefore. lia.
Qed.

(** ** How many requests a scan makes *)

Section ScanRequests.

Context (get : nat → nat → option string → Page) (limit : nat).

Lemma pages_fill (pages : list (list Message)) j :
  Forall (λ page, page ≠ []) pages → j ≤ length pages →
  j ≤ length (concat (take j pages)).
Proof.
  intros Hne. induction j as [|j IH]; intros Hj; [lia|].
  destruct (lookup_lt_is_Some_2 pages j ltac:(lia)) as [page Hpage].
  rewrite (take_S_r _ _ _ Hpage), concat_app, length_app. simpl.
  rewrite app_nil_r.
  assert (page ≠ []) as Hp.
  { rewrite Forall_forall in Hne. apply Hne.
    by eapply list_elem_of_lookup_2. }
  destruct page; [done|]. simpl. specialize (IH ltac:(lia)). lia.
Qed.

End ScanRequests.

(** X3.  A scan makes at most [limit] page requests, and none at all for a
    limit of 0; each asks for at least one message and at most 100, and
    never for more than [limit]. *)
Theorem fetch_messages_request_bound
    (get : nat → nat → option string → Page) (limit : nat) :
  length (requested (fetch_messages get limit).2) ≤ limit
  ∧ Forall (λ q, 1 ≤ q.1 ∧ q.1 ≤ 100 ∧ q.1 ≤ limit)
      (requested (fetch_messages get limit).2).
Proof.
  destruct (fetch_loop_pages get limit 0 [])
    as (pages & Hpages & Hstop & Hres & Hreq).
  unfold fetch_messages. cbn [snd]. simpl in Hreq, Hpages. rewrite Hreq.
  assert (Forall (λ page, page ≠ []) pages) as Hne.
  { apply Forall_forall. intros page [j Hj]%list_elem_of_lookup.
    destruct (Hpages j) as (_ & _ & Hb & Hp); [by eapply lookup_lt_Some|].
    rewrite Hj in Hp. by injection Hp as ->. }
  assert (length pages ≤ limit) as Hlen.
  { destruct pages as [|p0 pages0] using rev_ind; [simpl; lia|].
    rewrite length_app. simpl.
    destruct (Hpages (length pages0)) as (Hheld & _);
      [rewrite length_app; simpl; lia|].
    rewrite take_app_le, take_ge in Hheld by lia.
    pose proof (pages_fill pages0 (length pages0)) as Hfill.
    rewrite take_ge in Hfill by lia.
    apply Forall_app in Hne as [Hne _]. specialize (Hfill Hne ltac:(lia)).
    lia. }
  split.
  - rewrite length_fmap, length_seq. case_decide as Hfull; [done|].
    pose proof (pages_fill pages (length pages) Hne ltac:(lia)) as Hfill.
    rewrite take_ge in Hfill by lia. lia.
  - apply Forall_fmap, Forall_forall. intros j Hj%elem_of_seq. simpl.
    assert (length (concat (take j pages)) < limit) as Hheld.
    { destruct (decide (j < length pages)) as [Hlt|Hge].
      - by destruct (Hpages j Hlt) as (Hheld & _).
      - case_decide as Hfull; [lia|].
        rewrite take_ge by lia. lia. }
    unfold page_request. simpl. lia.
Qed.

(** ** What the inventory counts *)

Local Arguments N.add : simpl never.

Section InventoryCounts.

Context (name : string).

Implicit Types acc : gmap string nat * gmap string N.

Lemma count_attachments_parts acc atts :
  default 0 ((foldl count_attachment acc atts).1 !! name)
  = default 0 (acc.1 !! name)
    + length (filter (λ att, clean_filename_part (filename att) = name) atts)
  ∧ (is_Some ((foldl count_attachment acc atts).1 !! name) ↔
     is_Some (acc.1 !! name)
     ∨ filter (λ att, clean_filename_part (filename att) = name) atts ≠ []).
Proof.
  revert acc. induction atts as [|att atts IH]; intros acc.
  - simpl. split; [lia|]. split; [by left|by intros [?|?]].
  - simpl foldl. destruct (IH (count_attachment acc att)) as [IHc IHs].
    rewrite IHc, IHs, filter_cons. unfold count_attachment. simpl.
    case_decide as Hatt.
    + rewrite Hatt, lookup_insert_eq. simpl. split; [lia|].
      split; [by intros; right|by intros; left].
    + rewrite lookup_insert_ne by done. done.
Qed.

Lemma count_attachments_bytes acc atts :
  default 0%N ((foldl count_attachment acc atts).2 !! name)
  = (default 0 (acc.2 !! name)
     + foldr N.add 0
         (size <$>
          filter (λ att, clean_filename_part (filename att) = name) atts))%N
  ∧ (is_Some ((foldl count_attachment acc atts).2 !! name) ↔
     is_Some (acc.2 !! name)
     ∨ filter (λ att, clean_filename_part (filename att) = name) atts ≠ []).
Proof.
  revert acc. induction atts as [|att atts IH]; intros acc.
  - simpl. split; [lia|]. split; [by left|by intros [?|?]].
  - simpl foldl. destruct (IH (count_attachment acc att)) as [IHc IHs].
    rewrite IHc, IHs, filter_cons. unfold count_attachment. simpl.
    case_decide as Hatt.
    + rewrite Hatt, lookup_insert_eq. simpl.
      split; [by rewrite <- N.add_assoc|].
      split; [by intros; right|by intros; left].
    + rewrite lookup_insert_ne by done. done.
Qed.

(** The attachments of [name] in one message. *)
Lemma located_cons msg messages :
  located name (msg :: messages)
  = ((λ att, (msg, att)) <$>
     filter (λ att, clean_filename_part (filename att) = name)
       (attachments msg))
    ++ located name messages.
Proof.
  unfold located. rewrite bind_cons. f_equal.
  induction (attachments msg) as [|att atts IH]; [done|].
  rewrite bind_cons, filter_cons, IH. by case_decide.
Qed.

Lemma sum_sizes_app (l1 l2 : list N) :
  foldr N.add 0%N (l1 ++ l2) = (foldr N.add 0 l1 + foldr N.add 0 l2)%N.
Proof.
  induction l1 as [|x l1 IH]; simpl; [done|].
  by rewrite IH, N.add_assoc.
Qed.

Lemma count_messages_located acc messages :
  let inv := foldl (λ acc msg, foldl count_attachment acc (attachments msg))
               acc messages in
  default 0 (inv.1 !! name)
  = default 0 (acc.1 !! name) + length (located name messages)
  ∧ default 0%N (inv.2 !! name)
    = (default 0 (acc.2 !! name)
       + foldr N.add 0 ((λ ma, size ma.2) <$> located name messages))%N
  ∧ (is_Some (inv.1 !! name) ↔
     is_Some (acc.1 !! name) ∨ located name messages ≠ [])
  ∧ (is_Some (inv.2 !! name) ↔
     is_Some (acc.2 !! name) ∨ located name messages ≠ []).
Proof.
  revert acc. induction messages as [|msg messages IH]; intros acc.
  - simpl. rewrite Nat.add_0_r, N.add_0_r.
    split_and!; try done; (split; [by left|by intros [?|?]]).
  - cbv zeta in *. simpl foldl.
    destruct (IH (foldl count_attachment acc (attachments msg)))
      as (IHc & IHz & IHs & IHt).
    destruct (count_attachments_parts acc (attachments msg)) as [Hc Hs].
    destruct (count_attachments_bytes acc (attachments msg)) as [Hz Ht].
    rewrite located_cons.
    set (here := filter (λ att, clean_filename_part (filename att) = name)
                   (attachments msg)) in *.
    assert (∀ rest : list (Message * Attachment),
              ((λ att, (msg, att)) <$> here) ++ rest ≠ []
              ↔ here ≠ [] ∨ rest ≠ []) as Happ.
    { intros rest. destruct here; simpl; [|by split; [left|]].
      split; [by right|by intros [?|?]]. }
    split_and!.
    + rewrite IHc, Hc, length_app, length_fmap. lia.
    + rewrite IHz, Hz, fmap_app, sum_sizes_app, <- list_fmap_compose.
      by rewrite N.add_assoc.
    + rewrite IHs, Hs, Happ. tauto.
    + rewrite IHt, Ht, Happ. tauto.
Qed.

End InventoryCounts.

(** A file of which the scan holds an attachment is in the inventory. *)
Lemma inventory_of_located (get : nat → nat → option string → Page)
    (limit : nat) (name : string) :
  located name (fetch_messages get limit).1 ≠ [] →
  (build_inventory get limit).1 !! name
  = Some (length (located name (fetch_messages get limit).1))
  ∧ (build_inventory get limit).2 !! name
    = Some (foldr N.add 0%N
              ((λ ma, size ma.2) <$>
               located name (fetch_messages get limit).1)).
Proof.
  intros Hsome.
  destruct (count_messages_located name (∅, ∅) (fetch_messages get limit).1)
    as (Hc & Hz & Hs & Ht).
  fold (group_files (fetch_messages get limit).1) in Hc, Hz, Hs, Ht.
  fold (build_inventory get limit) in Hc, Hz, Hs, Ht.
  simpl in Hc, Hz, Hs, Ht.
  destruct (proj2 Hs (or_intror Hsome)) as [c Hlc].
  destruct (proj2 Ht (or_intror Hsome)) as [z Hlz].
  rewrite Hlc in Hc. rewrite Hlz in Hz. simpl in Hc, Hz.
  rewrite Hlc, Hlz. split; f_equal; [done|]. by rewrite Hz, N.add_0_l.
Qed.

(** X4.  The inventory lists a file exactly when the scan holds an
    attachment whose name, the part suffix removed, is the name of the file;
    its part count is then the number of these attachments and its size the
    sum of their sizes. These are the attachments [download_file] fetches
    and [delete_file] asks to delete, one request each. *)
Theorem inventory_counts_located (get : nat → nat → option string → Page)
    (limit : nat) (name : string) :
  let messages := (fetch_messages get limit).1 in
  let found := located name messages in
  let inv := build_inventory get limit in
  (found = [] → inv.1 !! name = None ∧ inv.2 !! name = None)
  ∧ (found ≠ [] →
     inv.1 !! name = Some (length found)
     ∧ inv.2 !! name = Some (foldr N.add 0%N ((λ ma, size ma.2) <$> found)))
  ∧ length (parts_of name messages) = length found
  ∧ length (ids_of name messages) = length found.
Proof.
  intros messages found inv.
  destruct (count_messages_located name (∅, ∅) messages)
    as (Hc & Hz & Hs & Ht).
  fold (group_files messages) in Hc, Hz, Hs, Ht.
  change (group_files messages) with inv in Hc, Hz, Hs, Ht.
  fold found in Hc, Hz, Hs, Ht. simpl in Hc, Hz, Hs, Ht.
  rewrite ?lookup_empty in Hs, Ht.
  split_and!.
  - intros Hnone. split.
    + apply eq_None_not_Some. rewrite Hs. intros [[? [=]]|?]. done.
    + apply eq_None_not_Some. rewrite Ht. intros [[? [=]]|?]. done.
  - apply inventory_of_located.
  - unfold parts_of. by rewrite length_fmap.
  - unfold ids_of. by rewrite length_fmap.
Qed.

(** ** A delete that meets no refusal *)

Section DeleteAll.

Context (delete : nat → string → Response)
  (all_gone : ∀ k i, status (delete k i) = 204).

Lemma delete_loop_all_gone k to_delete deleted_count :
  (delete_loop delete k to_delete deleted_count).1
  = Some (deleted_count + length to_delete)
  ∧ attempted (delete_loop delete k to_delete deleted_count).2 = to_delete.
Proof.
  revert k deleted_count.
  induction to_delete as [|message_id rest IH]; intros k deleted_count.
  - simpl. by rewrite Nat.add_0_r.
  - assert (delete_one delete message_id k 0
            = ((Gone, S k), [Delete message_id; Progress])) as Hone.
    { rewrite delete_one_unfold.
      rewrite decide_True by (unfold MAX_RETRIES; lia).
      cbv zeta. by rewrite decide_True by apply all_gone. }
    rewrite delete_loop_cons by by rewrite Hone.
    cbv zeta. rewrite Hone. unfold and_then. cbn [fst snd].
    destruct (IH (S k) (S deleted_count)) as [Hcount Hatt].
    rewrite Hcount, attempted_app, Hatt. split; [f_equal; simpl; lia|done].
Qed.

End DeleteAll.

Lemma ids_of_cons file_name msg messages :
  ids_of file_name (msg :: messages)
  = replicate
      (length (filter (λ att, clean_filename_part (filename att) = file_name)
                 (attachments msg)))
      (id msg)
    ++ ids_of file_name messages.
Proof.
  unfold ids_of. rewrite located_cons, fmap_app. f_equal.
  rewrite <- list_fmap_compose.
  induction (filter _ (attachments msg)) as [|att atts IH]; [done|].
  simpl. f_equal. exact IH.
Qed.

Lemma ids_of_per_attachment file_name messages :
  ids_of file_name messages
  = msg ← messages;
    replicate
      (length (filter (λ att, clean_filename_part (filename att) = file_name)
                 (attachments msg)))
      (id msg).
Proof.
  induction messages as [|msg messages IH]; [done|].
  by rewrite ids_of_cons, bind_cons, IH.
Qed.

(** X5.  When every DELETE is answered 204, [delete_file] sends exactly one
    request per attachment of the file that the scan holds, in scan order,
    and reports their number. A message is asked for once per such
    attachment it carries, so a message with two parts of the file is
    deleted twice. *)
Theorem delete_file_all_gone (get_page : nat → nat → option string → Page)
    (delete : nat → string → Response) (file_name : string) :
  let scan := fetch_messages get_page MAX_MESSAGES_TO_FETCH in
  let to_delete := ids_of file_name scan.1 in
  let out := delete_file get_page delete file_name in
  (∀ k i, status (delete k i) = 204) →
  to_delete ≠ [] →
  out.1 = Some (length to_delete)
  ∧ attempted out.2 = to_delete
  ∧ to_delete
    = msg ← scan.1;
      replicate
        (length (filter (λ att, clean_filename_part (filename att) = file_name)
                   (attachments msg)))
        (id msg).
Proof.
  intros scan to_delete out Hgone Hne.
  destruct (delete_loop_all_gone delete Hgone 0 to_delete 0) as [Hcount Hatt].
  assert (out = (Some (length to_delete),
                 scan.2 ++ (delete_loop delete 0 to_delete 0).2
                 ++ [Print (Deleted (length to_delete) file_name)])) as ->.
  { subst out. unfold delete_file. fold scan. fold to_delete.
    destruct to_delete; [done|]. by rewrite Hcount. }
  cbn [fst snd]. split_and!; [done| |].
  - rewrite !attempted_app, Hatt.
    assert (attempted scan.2 = []) as ->.
    { pose proof (fetch_loop_events get_page MAX_MESSAGES_TO_FETCH 0 [] None)
        as Hscan.
      subst scan. unfold fetch_messages. cbn [snd].
      induction Hscan as [|e evs He _ IH]; [done|].
      by destruct e as [| | | | | | | |[]]. }
    simpl. by rewrite app_nil_r.
  - apply ids_of_per_attachment.
Qed.

Lemma delete_file_all_gone_witness :
  let att f := {| filename := f; size := 1; url := "cdn/" +:+ f |} in
  let history :=
    [ {| id := "20"; attachments := [att "a.part2"; att "a.part3"] |};
      {| id := "10"; attachments := [att "a.part1"; att "b.part1"] |} ] in
  let delete := λ (k : nat) (i : string),
    {| status := 204; text := EmptyString; json := None |} in
  let out := delete_file (serve history) delete "a" in
  attempted out.2 = ["20"; "20"; "10"] ∧ out.1 = Some 3.
Proof.
  intros att history delete out. split; [by vm_compute|].
  apply (delete_file_all_gone (serve history) delete "a").
  - done.
  - by vm_compute.
Defined.

(** ** Download: nothing found, everything fetched *)

(** X6.  When the scan holds no part of [file_name], [download_file] says so
    and stops: it opens no file, fetches nothing, and the local files, one
    named [file_name] included, are as they were. *)
Theorem download_not_found (get_page : nat → nat → option string → Page)
    (get_url : nat → string → Fetched) (file_name : string)
    (fs : gmap string (list byte)) :
  let scan := fetch_messages get_page MAX_MESSAGES_TO_FETCH in
  let out := download_file get_page get_url file_name fs in
  parts_of file_name scan.1 = [] →
  out.1 = fs
  ∧ out.2 = scan.2 ++ [Print (NoPartsFound file_name)]
  ∧ opened out.2 = [] ∧ fetched out.2 = [].
Proof.
  intros scan out Hnone. subst out. unfold download_file. fold scan.
  rewrite Hnone. cbn [fst snd].
  destruct (scan_fetches_nothing scan.2) as [Hf Ho];
    [apply fetch_loop_events|].
  by rewrite opened_app, fetched_app, Hf, Ho.
Qed.

Lemma download_not_found_witness :
  let history :=
    [ {| id := "10";
         attachments := [{| filename := "b.part1"; size := 1;
                            url := "cdn/b" |}] |} ] in
  let get_url := λ (k : nat) (u : string),
    {| fetch_status := 200; fetch_text := EmptyString; content := [] |} in
  let fs : gmap string (list byte) := {[ "a" := [Byte.x6f] ]} in
  (download_file (serve history) get_url "a" fs).1 = fs.
Proof.
  intros history get_url fs.
  apply (download_not_found (serve history) get_url "a" fs).
  by vm_compute.
Defined.

Lemma download_file_fetches_all (get_page : nat → nat → option string → Page)
    (get_url : nat → string → Fetched) (file_name : string)
    (fs : gmap string (list byte)) :
  let scan := fetch_messages get_page MAX_MESSAGES_TO_FETCH in
  let sorted := sort_by (λ x, part_key x.1) (parts_of file_name scan.1) in
  parts_of file_name scan.1 ≠ [] →
  (∀ i p, sorted !! i = Some p → fetch_status (get_url i p.2) = 200) →
  let run := download_loop get_url file_name 0 sorted
               (<[file_name := []]> fs) in
  download_file get_page get_url file_name fs
  = (run.1.1,
     scan.2 ++ OpenWb file_name :: run.2 ++ [Print (Downloaded file_name)])
  ∧ run.1.1 = <[file_name := concat (contents get_url 0 sorted)]> fs
  ∧ fetched run.2 = sorted.*2.
Proof.
  intros scan sorted Hparts Hok run.
  destruct (download_loop_split get_url file_name 0 sorted
              (<[file_name := []]> fs) [])
    as (done & tail & Hsplit & Hdone & Htail & Hfs & Hflag & Hget & _).
  { apply lookup_insert_eq. }
  assert (done = sorted) as ->.
  { apply (split_unique get_url 0 done tail sorted []); try done.
    - by rewrite app_nil_r.
    - by left. }
  assert (tail = []) as ->.
  { apply (app_inv_head sorted). by rewrite app_nil_r. }
  rewrite bool_decide_eq_true_2 in Hflag by done.
  fold run in Hfs, Hflag, Hget. split_and!.
  - unfold download_file. fold scan.
    destruct (parts_of file_name scan.1) eqn:Hp; [done|].
    cbv zeta. fold sorted. fold run. by rewrite Hflag.
  - by rewrite Hfs, insert_insert_eq.
  - rewrite Hget. simpl. by rewrite app_nil_r.
Qed.

(** X7.  When every fetch is answered 200, every part the scan holds is
    fetched once, in ascending order of part number, the file holds their
    bodies joined in that order, and the closing line is the last thing
    printed. *)
Theorem download_complete (get_page : nat → nat → option string → Page)
    (get_url : nat → string → Fetched) (file_name : string)
    (fs : gmap string (list byte)) :
  let scan := fetch_messages get_page MAX_MESSAGES_TO_FETCH in
  let parts := parts_of file_name scan.1 in
  let sorted := sort_by (λ x, part_key x.1) parts in
  let out := download_file get_page get_url file_name fs in
  parts ≠ [] →
  (∀ i p, sorted !! i = Some p → fetch_status (get_url i p.2) = 200) →
  out.1 = <[file_name := concat (contents get_url 0 sorted)]> fs
  ∧ fetched out.2 = sorted.*2
  ∧ last out.2 = Some (Print (Downloaded file_name)).
Proof.
  intros scan parts sorted out Hparts Hok.
  destruct (download_file_fetches_all get_page get_url file_name fs Hparts Hok)
    as (Hout & Hfs & Hget).
  fold scan in Hout, Hfs, Hget. fold parts in Hout, Hfs, Hget.
  fold sorted in Hout, Hfs, Hget.
  subst out. rewrite Hout. cbn [fst snd]. split_and!.
  - done.
  - destruct (scan_fetches_nothing scan.2) as [Hf _];
      [apply fetch_loop_events|].
    rewrite fetched_app, Hf.
    change (fetched (OpenWb file_name :: ?evs)) with (fetched evs).
    rewrite fetched_app, Hget. simpl. by rewrite !app_nil_r.
  - rewrite last_app. simpl. rewrite last_cons, last_app. done.
Qed.

Lemma download_complete_witness :
  let att f := {| filename := f; size := 1; url := "cdn/" +:+ f |} in
  let history :=
    [ {| id := "2"; attachments := [att "a.part2"] |};
      {| id := "1"; attachments := [att "a.part1"] |} ] in
  let get_url := λ (k : nat) (u : string),
    {| fetch_status := 200; fetch_text := EmptyString;
       content := if decide (u = "cdn/a.part1")
                  then [Byte.x41] else [Byte.x42] |} in
  let out := download_file (serve history) get_url "a" ∅ in
  out.1 !! "a" = Some [Byte.x41; Byte.x42]
  ∧ last out.2 = Some (Print (Downloaded "a")).
Proof.
  intros att history get_url out. split; [by vm_compute|].
  apply (download_complete (serve history) get_url "a" ∅).
  - by vm_compute.
  - done.
Defined.

(** ** A part that has ended stays ended *)

Section Ended.

Lemma step_keeps_ended st st' j t :
  step st st' → tasks st !! j = Some t → terminal t = true →
  tasks st' !! j = Some t.
Proof.
  intros Hstep Hj Ht.
  destruct Hstep as [st i t' n Hi Hpc Hn Hp|st i t' n Hi Hpc Hn
                    |st i t' n r Hi Hpc|st i t' n d Hi Hpc|st Hall Hr]; simpl;
    [..|done];
    (destruct (decide (i = j)) as [->|Hij];
     [rewrite Hj in Hi; injection Hi as <-;
      unfold terminal in Ht; by rewrite Hpc in Ht
     |by rewrite list_lookup_insert_ne]).
Qed.

End Ended.

(** X8.  In the concurrent upload a part that has ended, uploaded or failed,
    keeps that outcome whatever the other parts do afterwards: it is neither
    posted again nor undone. *)
Theorem ended_part_stays (st st' : State) (j : nat) (t : Task) :
  rtc step st st' → tasks st !! j = Some t → terminal t = true →
  tasks st' !! j = Some t.
Proof.
  intros Hrun. induction Hrun as [|st st1 st' Hstep _ IH]; [done|].
  intros Hj Ht. apply IH; [|done]. by eapply step_keeps_ended.
Qed.

Lemma ended_part_stays_witness :
  let first := {| part := 1; chunk := [Byte.x01]; pc := Finished Uploaded |} in
  let second n := {| part := 2; chunk := [Byte.x02]; pc := n |} in
  let st := {| tasks := [first; second (InFlight 0)]; permits := 2;
               returned := false |} in
  let st' := {| tasks := [first; second (Finished (RemoteError 500 "oops"))];
                permits := 3; returned := false |} in
  rtc step st st' ∧ tasks st' !! 0 = Some first.
Proof.
  intros first second st st'.
  assert (rtc step st st') as Hrun.
  { apply rtc_once.
    exact (step_reply st 1 (second (InFlight 0)) 0
             {| status := 500; text := "oops"; json := None |}
             eq_refl eq_refl). }
  split; [exact Hrun|].
  by apply (ended_part_stays st st' 0 first Hrun).
Defined.

(** ** Upload, then list and download *)

Section Stored.

Context (name : string).

Lemma after_named (l : list (nat * list byte)) channel :
  l.*1 = seq (S (length channel)) (length l) →
  foldl receive channel ((λ pc, (part_name name pc.1, pc.2)) <$> l)
  = reverse (stored name <$> l) ++ channel.
Proof.
  revert channel. induction l as [|[p c] l IH]; intros channel Hl; [done|].
  simpl in Hl. injection Hl as -> Hl.
  rewrite fmap_cons. simpl foldl.
  rewrite IH by done.
  rewrite fmap_cons, reverse_cons, <- app_assoc. done.
Qed.

Lemma stored_well_formed (l : list (nat * list byte)) :
  NoDup l.*1 → well_formed (stored name <$> l).*1.
Proof.
  intros Hnd. split.
  - assert (id <$> (stored name <$> l).*1 = pretty <$> l.*1) as ->.
    { clear Hnd. induction l as [|pc l IH]; [done|].
      rewrite !fmap_cons, IH. done. }
    by apply (NoDup_fmap_2 _).
  - rewrite <- list_fmap_compose. apply Forall_fmap, Forall_forall.
    intros pc _. simpl. by destruct (pretty_nat_digits pc.1) as [? _].
Qed.

Lemma located_stored (l : list (nat * list byte)) :
  located name (stored name <$> l).*1
  = (λ pc, ((stored name pc).1,
            {| filename := part_name name pc.1;
               size := N.of_nat (length pc.2);
               url := pretty pc.1 |})) <$> l.
Proof.
  induction l as [|pc l IH]; [done|].
  rewrite !fmap_cons, located_cons, IH. simpl attachments.
  rewrite filter_cons, decide_True
    by (simpl; by destruct (part_name_round_trip name pc.1)).
  done.
Qed.

Lemma parts_of_stored (l : list (nat * list byte)) :
  parts_of name (stored name <$> l).*1 = shown name <$> l.
Proof.
  unfold parts_of. rewrite located_stored, <- list_fmap_compose.
  by apply list_fmap_ext.
Qed.

Lemma insert_by_last {A} (key : A → N) x (l : list A) :
  Forall (λ y, (key y < key x)%N) l → insert_by key x l = l ++ [x].
Proof.
  induction 1 as [|y l Hy _ IH]; [done|]. simpl.
  rewrite (proj2 (N.leb_gt _ _)) by done. by rewrite IH.
Qed.

(** A scan shows the newest part first; sorting by part number turns the
    parts round. *)
Lemma sort_shown (l : list (nat * list byte)) a :
  l.*1 = seq a (length l) →
  sort_by (λ x, part_key x.1) (shown name <$> reverse l) = shown name <$> l.
Proof.
  induction l as [|pc l IH] using rev_ind; intros Hl; [done|].
  rewrite fmap_app, length_app, seq_app in Hl. simpl in Hl.
  apply app_inj_1 in Hl as [Hl [= Hpc]];
    [|by rewrite length_fmap, length_seq].
  rewrite reverse_snoc, fmap_cons. simpl. rewrite (IH Hl).
  rewrite insert_by_last; [by rewrite fmap_app|].
  apply Forall_fmap, Forall_forall. intros pc' Hin. simpl.
  destruct (part_name_round_trip name pc.1) as [_ ->].
  destruct (part_name_round_trip name pc'.1) as [_ ->].
  assert (pc'.1 ∈ seq a (length l)) as Hseq.
  { rewrite <- Hl. apply list_elem_of_fmap. by exists pc'. }
  apply elem_of_seq in Hseq. lia.
Qed.

Lemma stored_at_found (l : list (nat * list byte)) pc :
  NoDup l.*1 → pc ∈ l → stored_at (pretty pc.1) (stored name <$> l) = Some pc.2.
Proof.
  induction l as [|pc' l IH]; intros Hnd Hin; [by apply elem_of_nil in Hin|].
  rewrite fmap_cons in Hnd. apply NoDup_cons in Hnd as [Hnotin Hnd].
  rewrite fmap_cons. simpl.
  apply elem_of_cons in Hin as [->|Hin]; [by rewrite decide_True|].
  rewrite decide_False; [by apply IH|].
  intros Heq%(inj pretty). destruct Hnotin. rewrite Heq.
  apply list_elem_of_fmap. by exists pc.
Qed.

Lemma sizes_stored (l : list (nat * list byte)) :
  foldr N.add 0%N
    ((λ ma, size ma.2) <$> located name (stored name <$> l).*1)
  = N.of_nat (length (concat l.*2)).
Proof.
  rewrite located_stored.
  induction l as [|pc l IH]; [done|].
  rewrite !fmap_cons.
  change (foldr N.add 0%N (?x :: ?r)) with (x + foldr N.add 0%N r)%N.
  rewrite IH. simpl. rewrite length_app. lia.
Qed.

End Stored.

Lemma length_concat_reverse {A} (l : list (list A)) :
  length (concat (reverse l)) = length (concat l).
Proof.
  induction l as [|x l IH]; [done|].
  rewrite reverse_cons, concat_app, length_app, IH. simpl.
  rewrite app_nil_r, length_app. lia.
Qed.

Section ChunksDropped.

Context (chunk_size : nat) (chunk_size_pos : 0 < chunk_size).

(** Without its first [m] chunks a file is without its first
    [m * chunk_size] bytes. *)
Lemma concat_drop_chunks m part rest :
  concat (drop m (read_chunks chunk_size part rest)).*2
  = drop (m * chunk_size) rest.
Proof.
  revert part rest. induction m as [|m IH]; intros part rest.
  - simpl. by apply read_chunks_concat.
  - destruct rest as [|b rest].
    + rewrite read_chunks_nil by done. by rewrite !drop_nil.
    + rewrite read_chunks_cons by done. simpl drop at 1.
      by rewrite IH, drop_drop.
Qed.

End ChunksDropped.

(** X9.  On a channel that is empty before the upload, and with a remote
    that accepts every part and serves what it keeps: after the serial
    upload of a file of [k] parts a scan shows the newest 100 parts at most,
    so the file is listed with [min k 100] parts, and a download writes the
    file from its part [k - 99] on.  A file of at most 100 parts comes back
    whole; of a larger one the first [(k - 100) * chunk_size] bytes are
    missing.  (On a channel that already holds parts of that name the
    listing and the download take those in as well; this is not stated
    here.) *)
Theorem upload_then_download (chunk_size : nat) (name : string)
    (data : list byte) (fs : gmap string (list byte)) :
  0 < chunk_size → data ≠ [] →
  let channel :=
    after (upload_sync chunk_size name (Some data) accept) [] in
  let k := length (read_chunks chunk_size 1 data) in
  let lost := chunk_size * (k - MAX_MESSAGES_TO_FETCH) in
  (download_file (serve channel.*1) (fetch channel) name fs).1
  = <[name := drop lost data]> fs
  ∧ (list_files (serve channel.*1)).1 !! name
    = Some (k `min` MAX_MESSAGES_TO_FETCH)
  ∧ (list_files (serve channel.*1)).2 !! name
    = Some (N.of_nat (length data - lost))
  ∧ (k ≤ MAX_MESSAGES_TO_FETCH → drop lost data = data).
Proof.
  intros Hpos Hdata channel k lost.
  set (parts := read_chunks chunk_size 1 data) in *.
  assert (parts.*1 = seq 1 k) as Hparts by apply read_chunks_parts, Hpos.
  assert (parts ≠ []) as Hne.
  { subst parts. destruct data; [done|].
    by rewrite read_chunks_cons by done. }
  assert (channel = reverse (stored name <$> parts)) as Hchannel.
  { subst channel. unfold after, upload_sync.
    rewrite (upload_sync_loop_posted chunk_size Hpos) by done.
    rewrite after_named by done. by rewrite app_nil_r. }
  set (m := k - MAX_MESSAGES_TO_FETCH) in *.
  set (kept := drop m parts).
  assert (kept.*1 = seq (1 + m) (length kept)) as Hkept.
  { subst kept. rewrite fmap_drop, Hparts, drop_seq, length_drop.
    by fold k. }
  assert (NoDup parts.*1) as Hnd by (rewrite Hparts; apply NoDup_seq).
  assert (kept ≠ []) as Hkne.
  { subst kept m. intros Hnil%(f_equal length).
    rewrite length_drop in Hnil. fold k in Hnil.
    assert (0 < k) by (subst k; destruct parts; [done|simpl; lia]).
    simpl in Hnil. unfold MAX_MESSAGES_TO_FETCH in Hnil. lia. }
  assert (channel.*1 = (stored name <$> reverse parts).*1) as Hhistory.
  { rewrite Hchannel. f_equal. symmetry. apply fmap_reverse. }
  assert (well_formed channel.*1) as Hwf.
  { rewrite Hhistory. apply stored_well_formed.
    by rewrite fmap_reverse, reverse_Permutation. }
  assert ((fetch_messages (serve channel.*1) MAX_MESSAGES_TO_FETCH).1
          = (stored name <$> reverse kept).*1) as Hscan.
  { destruct (fetch_messages_serve channel.*1 MAX_MESSAGES_TO_FETCH Hwf)
      as [-> _].
    rewrite Hhistory, <- !fmap_take. do 2 f_equal.
    subst kept m. by rewrite take_reverse. }
  assert (concat kept.*2 = drop lost data) as Hbytes.
  { subst kept parts lost.
    rewrite (concat_drop_chunks chunk_size Hpos). f_equal. lia. }
  assert (located name (stored name <$> reverse kept).*1 ≠ []) as Hfound.
  { rewrite located_stored. intros Hnil%fmap_nil_inv.
    apply (f_equal reverse) in Hnil. by rewrite reverse_involutive in Hnil. }
  assert (parts_of name (stored name <$> reverse kept).*1 ≠ []) as Hshown.
  { unfold parts_of. by intros Hnil%fmap_nil_inv. }
  assert (∀ pc, pc ∈ kept →
            fetch channel 0 (shown name pc).2
            = {| fetch_status := 200; fetch_text := "";
                 content := pc.2 |}) as Hfetch0.
  { intros pc Hpc. unfold fetch, shown. simpl.
    rewrite Hchannel, <- fmap_reverse.
    rewrite (stored_at_found name (reverse parts) pc); [done| |].
    - by rewrite fmap_reverse, reverse_Permutation.
    - apply elem_of_reverse. apply list_elem_of_lookup in Hpc as [i Hi].
      subst kept. rewrite lookup_drop in Hi.
      by eapply list_elem_of_lookup_2. }
  assert (∀ i pc, pc ∈ kept →
            fetch channel i (shown name pc).2
            = {| fetch_status := 200; fetch_text := "";
                 content := pc.2 |}) as Hfetch by (intros i; apply Hfetch0).
  split_and!.
  - destruct (download_file_fetches_all (serve channel.*1) (fetch channel)
                name fs) as (Hout & Hfs & _).
    + by rewrite Hscan.
    + rewrite Hscan, parts_of_stored, (sort_shown _ _ _ Hkept).
      intros i p (pc & -> & Hpc)%list_lookup_fmap_Some.
      exact (f_equal fetch_status
               (Hfetch i pc (list_elem_of_lookup_2 _ _ _ Hpc))).
    + rewrite Hout. cbn [fst]. rewrite Hfs. f_equal. rewrite <- Hbytes. f_equal.
      rewrite Hscan, parts_of_stored, (sort_shown _ _ _ Hkept).
      unfold contents. rewrite imap_fmap.
      rewrite <- (imap_const snd kept). apply imap_ext.
      intros i pc Hpc.
      exact (f_equal content
               (Hfetch i pc (list_elem_of_lookup_2 _ _ _ Hpc))).
  - destruct (inventory_of_located (serve channel.*1)
                MAX_MESSAGES_TO_FETCH name) as [Hcount _].
    + by rewrite Hscan.
    + unfold list_files. rewrite Hcount. f_equal.
      rewrite Hscan, located_stored, length_fmap, length_reverse.
      subst kept m. rewrite length_drop. fold k. lia.
  - destruct (inventory_of_located (serve channel.*1)
                MAX_MESSAGES_TO_FETCH name) as [_ Hsize].
    + by rewrite Hscan.
    + unfold list_files. rewrite Hsize, Hscan, sizes_stored. do 2 f_equal.
      by rewrite fmap_reverse, length_concat_reverse, Hbytes, length_drop.
  - intros Hk. subst lost m.
    replace (k - MAX_MESSAGES_TO_FETCH) with 0 by lia.
    by rewrite Nat.mul_0_r.
Qed.

Lemma upload_then_download_witness :
  let data := [Byte.x61; Byte.x62; Byte.x63] in
  let channel := after (upload_sync 2 "f" (Some data) accept) [] in
  (download_file (serve channel.*1) (fetch channel) "f" ∅).1
  = {[ "f" := data ]}
  ∧ (list_files (serve channel.*1)).1 !! "f" = Some 2.
Proof.
  intros data channel.
  destruct (upload_then_download 2 "f" data ∅ ltac:(lia) ltac:(done))
    as (Hfs & Hcount & _ & Hwhole).
  split; [|exact Hcount].
  cbv zeta in Hfs, Hwhole. fold channel in Hfs.
  rewrite Hfs, Hwhole; [by rewrite insert_empty|].
  vm_compute. lia.
Defined.

(** ** Part names never collide *)

(** X10.  The attachment name of part [n] of [name] gives back both:
    stripping the suffix yields [name], whatever [name] is (a name that
    itself ends in [.part7] or in a newline included), the sort key is [n],
    and two parts share an attachment name only if they are the same part of
    the same file. *)
Theorem part_names_distinct (name : string) (n : nat) :
  clean_filename_part (part_name name n) = name
  ∧ part_key (part_name name n) = N.of_nat n
  ∧ ∀ name' n', part_name name n = part_name name' n' →
      name = name' ∧ n = n'.
Proof.
  destruct (part_name_round_trip name n) as [Hclean Hkey].
  split_and!; [done..|]. intros name' n' Heq.
  destruct (part_name_round_trip name' n') as [Hclean' Hkey'].
  rewrite <- Heq in Hclean', Hkey'. split; [congruence|].
  rewrite Hkey in Hkey'. lia.
Qed.

(** ** The end and the length of a concurrent upload *)

Section Runs.

Lemma ended_hold_nothing (l : list Task) :
  Forall (λ t, terminal t = true) l → sum_list_with (weight holds_permit) l = 0.
Proof.
  induction 1 as [|t l Ht _ IH]; [done|]. simpl. rewrite IH.
  unfold weight, holds_permit. unfold terminal in Ht.
  by destruct (pc t).
Qed.

Lemma ended_do_not_move st st' :
  Forall (λ t, terminal t = true) (tasks st) → returned st = true →
  ¬ step st st'.
Proof.
  intros Hall Hret Hstep. rewrite Forall_forall in Hall.
  destruct Hstep as [st i t n Hi Hpc Hn Hp|st i t n Hi Hpc Hn
                    |st i t n r Hi Hpc|st i t n d Hi Hpc|st _ Hr];
    [..|congruence];
    specialize (Hall t (list_elem_of_lookup_2 _ _ _ Hi));
    unfold terminal in Hall; by rewrite Hpc in Hall.
Qed.

Lemma fuel_initial chunk_size content :
  fuel (initial chunk_size content)
  = (3 * MAX_RETRIES + 1) * length (read_chunks chunk_size 1 content) + 1.
Proof.
  unfold fuel, initial. cbn [tasks returned].
  induction (read_chunks chunk_size 1 content) as [|c l IH]; [done|].
  rewrite fmap_cons. cbn [sum_list_with length].
  unfold task_fuel at 1. cbn [pc]. unfold MAX_RETRIES in *. lia.
Qed.

Lemma nsteps_fuel chunk_size content n st st' :
  invariant chunk_size content st → nsteps step n st st' →
  n + fuel st' ≤ fuel st.
Proof.
  intros Hinv Hrun. induction Hrun as [|n st st1 st' Hstep _ IH]; [done|].
  pose proof (step_fuel st st1 (inv_ceiling _ _ _ Hinv) Hstep).
  specialize (IH (step_invariant _ _ _ _ Hinv Hstep)). lia.
Qed.

End Runs.

(** A run with two parts, the first of them rate limited once: both
    acquire the semaphore, the first is answered 429, sleeps inside the
    semaphore and tries again, both end uploaded, the gather returns. *)
Lemma retried_upload_run :
  nsteps step 8 (initial 1 [Byte.x01; Byte.x02])
    {| tasks := [ {| part := 1; chunk := [Byte.x01];
                     pc := Finished Uploaded |};
                  {| part := 2; chunk := [Byte.x02];
                     pc := Finished Uploaded |} ];
       permits := 3;
       returned := true |}.
Proof.
  pose (ok := {| status := 200; text := EmptyString; json := None |}).
  pose (busy := {| status := 429; text := "{}"; json := Some None |}).
  eapply nsteps_l.
  { eapply (step_acquire _ 0 _ 0);
      [reflexivity|reflexivity|unfold MAX_RETRIES; lia|vm_compute; lia]. }
  eapply nsteps_l.
  { eapply (step_acquire _ 1 _ 0);
      [reflexivity|reflexivity|unfold MAX_RETRIES; lia|vm_compute; lia]. }
  eapply nsteps_l.
  { eapply (step_reply _ 0 _ 0 busy); reflexivity. }
  eapply nsteps_l.
  { eapply (step_reply _ 1 _ 0 ok); reflexivity. }
  eapply nsteps_l.
  { eapply (step_wake _ 0 _ 0); reflexivity. }
  eapply nsteps_l.
  { eapply (step_acquire _ 0 _ 1);
      [reflexivity|reflexivity|unfold MAX_RETRIES; lia|vm_compute; lia]. }
  eapply nsteps_l.
  { eapply (step_reply _ 0 _ 1 ok); reflexivity. }
  eapply nsteps_l.
  { eapply step_join; [|reflexivity].
    repeat (apply Forall_cons; split; [reflexivity|]). apply Forall_nil_2. }
  exact (nsteps_O _ _).
Qed.

(** X11.  Once the gather of [upload_async] has returned, every permit of
    the semaphore is back and nothing moves any more: no part is posted
    after the return. *)
Theorem gather_return_is_final (chunk_size : nat) (content : list byte)
    (st : State) :
  reachable chunk_size content st → returned st = true →
  permits st = MAX_CONCURRENT_UPLOADS ∧ ∀ st', ¬ step st st'.
Proof.
  intros Hreach Hret.
  destruct (reachable_invariant _ _ _ Hreach) as [Hperm _ Hall _].
  specialize (Hall Hret). split.
  - unfold holders in Hperm. rewrite ended_hold_nothing in Hperm by done. lia.
  - intros st'. by apply ended_do_not_move.
Qed.

Lemma gather_return_is_final_witness :
  let st :=
    {| tasks := [ {| part := 1; chunk := [Byte.x01];
                     pc := Finished Uploaded |};
                  {| part := 2; chunk := [Byte.x02];
                     pc := Finished Uploaded |} ];
       permits := 3;
       returned := true |} in
  reachable 1 [Byte.x01; Byte.x02] st
  ∧ permits st = MAX_CONCURRENT_UPLOADS
  ∧ ∀ st', ¬ step st st'.
Proof.
  intros st.
  assert (reachable 1 [Byte.x01; Byte.x02] st) as Hreach
    by exact (rtc_nsteps_2 _ _ _ retried_upload_run).
  split; [exact Hreach|].
  exact (gather_return_is_final 1 [Byte.x01; Byte.x02] st Hreach eq_refl).
Defined.

(** X12.  Whatever the remote replies and however the tasks interleave, a
    concurrent upload of [k] parts makes at most [16 * k + 1] moves: per
    part at most five rounds of acquiring the semaphore, awaiting the reply
    and sleeping, the final give-up, and the return of the gather. *)
Theorem upload_async_run_length (chunk_size : nat) (content : list byte)
    (n : nat) (st : State) :
  nsteps step n (initial chunk_size content) st →
  n ≤ (3 * MAX_RETRIES + 1) * length (read_chunks chunk_size 1 content) + 1.
Proof.
  intros Hrun.
  pose proof (nsteps_fuel chunk_size content n _ st
                (initial_invariant chunk_size content) Hrun) as Hfuel.
  rewrite fuel_initial in Hfuel. lia.
Qed.

Lemma upload_async_run_length_witness :
  let st :=
    {| tasks := [ {| part := 1; chunk := [Byte.x01];
                     pc := Finished Uploaded |};
                  {| part := 2; chunk := [Byte.x02];
                     pc := Finished Uploaded |} ];
       permits := 3;
       returned := true |} in
  nsteps step 8 (initial 1 [Byte.x01; Byte.x02]) st ∧ 8 ≤ 16 * 2 + 1.
Proof.
  intros st. split; [exact retried_upload_run|].
  exact (upload_async_run_length 1 [Byte.x01; Byte.x02] 8 st
           retried_upload_run).
Defined.

(** ** The size shown for a file *)

Section Shown.

Lemma round_half_even_spec q :
  (inject_Z (round_half_even q) - q <= 1 # 2)%Q
  ∧ (q - inject_Z (round_half_even q) <= 1 # 2)%Q.
Proof.
  unfold round_half_even.
  pose proof (Qround.Qfloor_le q) as Hlo. pose proof (Qround.Qlt_floor q) as Hhi.
  rewrite inject_Z_plus in Hhi.
  destruct (Qcompare_spec (q - inject_Z (Qround.Qfloor q)) (1 # 2)) as [He|Hl|Hg];
    [destruct (Z.even (Qround.Qfloor q))|..];
    rewrite ?inject_Z_plus;
    change (inject_Z 1) with 1%Q in *;
    generalize dependent (inject_Z (Qround.Qfloor q)); intros f ? ? ?; split; Lqa.lra.
Qed.

Lemma scale_0 (x : Q) : (x * inject_Z (1024 ^ Z.of_nat 0) == x)%Q.
Proof. change (inject_Z (1024 ^ Z.of_nat 0)) with 1%Q. ring. Qed.

Lemma sizeof_fmt_loop_spec units num suffix :
  (0 <= num)%Q →
  ∃ j x,
    j ≤ length units
    ∧ sizeof_fmt_loop units num suffix
      = fixed2 x +:+ " " +:+ nth j (units ++ ["P"]) "" +:+ suffix
    ∧ (x * inject_Z (1024 ^ Z.of_nat j) == num)%Q
    ∧ (0 <= x)%Q
    ∧ (j < length units → (x < 1024)%Q)
    ∧ (0 < j → (1 <= x)%Q).
Proof.
  revert num. induction units as [|unit units IH]; intros num Hnum.
  - exists 0, num. split_and!; [done|done|apply scale_0|done|simpl; lia|lia].
  - simpl sizeof_fmt_loop.
    destruct (Qlt_le_dec (Qabs.Qabs num) 1024) as [Hlt|Hge].
    + exists 0, num. rewrite Qabs.Qabs_pos in Hlt by done.
      split_and!; [lia|done|apply scale_0|done|done|lia].
    + rewrite Qabs.Qabs_pos in Hge by done.
      destruct (IH (num / 1024)%Q) as (j & x & Hj & Hout & Hx & Hx0 & Hlt & Hge').
      { apply Qle_shift_div_l; Lqa.lra. }
      exists (S j), x. split_and!; [simpl; lia|done| |done| |].
      * rewrite Nat2Z.inj_succ, Z.pow_succ_r by lia.
        rewrite inject_Z_mult. change (inject_Z 1024) with 1024%Q.
        generalize dependent (inject_Z (1024 ^ Z.of_nat j)). intros d Hd.
        assert (x * (1024 * d) == 1024 * (x * d))%Q as -> by ring.
        rewrite Hd. field.
      * simpl. intros ?. apply Hlt. lia.
      * intros _. destruct j as [|j]; [|apply Hge'; lia].
        rewrite scale_0 in Hx. rewrite Hx. apply Qle_shift_div_l; Lqa.lra.
Qed.

Lemma shown_error (x : Q) (h D n : Z) :
  (0 < D)%Z → (x * inject_Z D == inject_Z n)%Q →
  (inject_Z h - x * 100 <= 1 # 2)%Q → (x * 100 - inject_Z h <= 1 # 2)%Q →
  (2 * Z.abs (h * D - 100 * n) ≤ D)%Z.
Proof.
  intros HD Hx Hup Hdown.
  assert (0 < inject_Z D)%Q as Hd by (by rewrite <- (Zlt_Qlt 0)).
  assert (2 * (h * D) ≤ D + 200 * n ∧ 200 * n ≤ D + 2 * (h * D))%Z
    as [? ?]; [|lia].
  rewrite !Zle_Qle, !inject_Z_plus, !inject_Z_mult, <- !Hx.
  change (inject_Z 2) with 2%Q. change (inject_Z 200) with 200%Q.
  generalize dependent (inject_Z D). generalize dependent (inject_Z h).
  intros h' ? ? d ? ?. split; Lqa.nra.
Qed.

Lemma shown_range (x : Q) (h : Z) :
  (0 <= x)%Q → (x < 1024)%Q →
  (inject_Z h - x * 100 <= 1 # 2)%Q → (x * 100 - inject_Z h <= 1 # 2)%Q →
  (0 ≤ h ≤ 102400)%Z.
Proof.
  intros Hx0 Hx Hup Hdown.
  assert (-1 < h ∧ h < 102401)%Z as [? ?]; [|lia].
  rewrite !Zlt_Qlt.
  change (inject_Z (-1)) with (-1 # 1)%Q.
  change (inject_Z 102401) with 102401%Q.
  generalize dependent (inject_Z h). intros h' ? ?. split; Lqa.lra.
Qed.

Lemma scale_pos (k : nat) : (0 < 1024 ^ Z.of_nat k)%Z.
Proof. apply Z.pow_pos_nonneg; lia. Qed.

End Shown.

(** X13.  For a size below 2^53 bytes [sizeof_fmt] shows a number with two
    decimals and a unit: the unit is the [k]-th of B, KB, MB, GB, TB, PB
    where [k] is least with [num < 1024^(k+1)] ([k = 5] at the latest), and
    the number is [num / 1024^k] to the nearest hundredth. The unit is
    chosen before the rounding, so the number shown lies between 0.00 and
    1024.00, both included. *)
Theorem sizeof_fmt_shown (num : N) :
  (num < 2 ^ 53)%N →
  ∃ k h,
    k ≤ 5
    ∧ sizeof_fmt num = hundredths h +:+ " " +:+ unit_of k +:+ "B"
    ∧ (2 * Z.abs (h * 1024 ^ Z.of_nat k - 100 * Z.of_N num)
       ≤ 1024 ^ Z.of_nat k)%Z
    ∧ (k < 5 → (Z.of_N num < 1024 ^ Z.of_nat (S k))%Z)
    ∧ (0 < k → (1024 ^ Z.of_nat k ≤ Z.of_N num)%Z)
    ∧ (0 ≤ h ≤ 102400)%Z.
Proof.
  intros Hnum.
  destruct (sizeof_fmt_loop_spec [""; "K"; "M"; "G"; "T"]
              (inject_Z (Z.of_N num)) "B")
    as (k & x & Hk & Hout & Hx & Hx0 & Hlt & Hge).
  { rewrite <- (Zle_Qle 0). lia. }
  destruct (round_half_even_spec (x * 100)) as [Hup Hdown].
  pose proof (scale_pos k) as HD.
  assert (0 < inject_Z (1024 ^ Z.of_nat k))%Q as Hd
    by (by rewrite <- (Zlt_Qlt 0)).
  exists k, (round_half_even (x * 100)). simpl in Hk.
  refine (conj Hk (conj Hout (conj _ (conj _ (conj _ _))))).
  - by apply (shown_error x).
  - intros Hk5. specialize (Hlt Hk5).
    rewrite Nat2Z.inj_succ, Z.pow_succ_r by lia.
    rewrite Zlt_Qlt, inject_Z_mult, <- Hx.
    change (inject_Z 1024) with 1024%Q.
    generalize dependent (inject_Z (1024 ^ Z.of_nat k)). intros d ? ?. Lqa.nra.
  - intros Hk0. specialize (Hge Hk0).
    rewrite Zle_Qle, <- Hx.
    generalize dependent (inject_Z (1024 ^ Z.of_nat k)). intros d ? ?. Lqa.nra.
  - apply (shown_range x); [done| |done..].
    destruct (decide (k < 5)) as [Hk5|Hk5]; [by apply Hlt|].
    assert (k = 5) as -> by lia.
    assert (inject_Z (Z.of_N num) < inject_Z (2 ^ 53))%Q as Hbound.
    { rewrite <- Zlt_Qlt. lia. }
    rewrite <- Hx in Hbound.
    change (inject_Z (1024 ^ Z.of_nat 5)) with 1125899906842624%Q in Hbound.
    change (inject_Z (2 ^ 53)) with 9007199254740992%Q in Hbound.
    Lqa.lra.
Qed.

Lemma sizeof_fmt_shown_witness :
  sizeof_fmt 1048575 = "1024.00 KB"
  ∧ ∃ k h,
      sizeof_fmt 1048575 = hundredths h +:+ " " +:+ unit_of k +:+ "B"
      ∧ (0 ≤ h ≤ 102400)%Z.
Proof.
  split; [by vm_compute|].
  destruct (sizeof_fmt_shown 1048575 ltac:(by vm_compute))
    as (k & h & _ & Hout & _ & _ & _ & Hh).
  by exists k, h.
Defined.
